(** * Sea Battle: Ship, Board, Player and Game

    A shallow embedding of the Sea Battle game of directory 7
    (src/Ship.js, src/Board.js, src/Player.js, src/Game.js) and the
    properties of its placement, guess resolution and hunt/target
    opponent.

    Conventions of the embedding.
    - A JS string is a [string]; every [ascii] stands for one code unit.
    - A JS number that the code computes with is a [JsNumber]: an integer
      or [NaN] (what [parseInt] gives for a character that is no digit).
    - A method that mutates [this] takes the object and returns the new
      object next to its result; a method that may throw returns a
      [Completion], and the object it returns with a [Throw] is the
      object as the exception left it.
    - [Math.random] reads the next value of a [Random] source. *)

From Stdlib Require Import ZArith String Ascii List Lia DecimalString.
From stdpp Require Import base gmap sets list strings.
From Equations Require Import Equations.

Local Open Scope string_scope.
Local Open Scope nat_scope.
Local Open Scope list_scope.

(* ------------------------------------------------------------------ *)
(** ** JavaScript values *)

Inductive JsError : Type :=
| Error (message : string)
| TypeError.

Inductive Completion (A : Type) : Type :=
| Normal (value : A)
| Throw (e : JsError).
Arguments Normal {A} value.
Arguments Throw {A} e.

Inductive JsNumber : Type :=
| Num (z : Z)
| NaN.

(** [a + k] and [a - k] for an integer constant [k]. *)
Definition jsAdd (a : JsNumber) (k : Z) : JsNumber :=
  match a with
  | Num z => Num (z + k)
  | NaN => NaN
  end.

(** [a < k] and [a >= k]; every comparison with NaN is false. *)
Definition jsLt (a : JsNumber) (k : Z) : bool :=
  match a with
  | Num z => bool_decide (z < k)%Z
  | NaN => false
  end.

Definition jsGe (a : JsNumber) (k : Z) : bool :=
  match a with
  | Num z => bool_decide (k ≤ z)%Z
  | NaN => false
  end.

(** [isNaN(a)] *)
Definition isNaN (a : JsNumber) : bool :=
  match a with
  | Num _ => false
  | NaN => true
  end.

(** [parseInt(s[i])] for one character: its value for a decimal digit,
    NaN for anything else. *)
Definition parseIntChar (ch : ascii) : JsNumber :=
  let code := nat_of_ascii ch in
  if bool_decide (48 ≤ code) && bool_decide (code ≤ 57)
  then Num (Z.of_nat code - 48)
  else NaN.

(** The string a template literal gives for an integer: [`${n}`]. *)
Definition numberToString (z : Z) : string :=
  NilZero.string_of_int (Z.to_int z).

(** [`${row}${col}`] *)
Definition coordinateString (row col : Z) : string :=
  String.append (numberToString row) (numberToString col).

(** White space that [String.prototype.trim] strips, among the code
    units below 256. *)
Definition isWhiteSpace (ch : ascii) : bool :=
  let code := nat_of_ascii ch in
  bool_decide (code = 9) || bool_decide (code = 10) || bool_decide (code = 11)
  || bool_decide (code = 12) || bool_decide (code = 13) || bool_decide (code = 32)
  || bool_decide (code = 160).

Fixpoint trimStart (s : string) : string :=
  match s with
  | String ch rest => if isWhiteSpace ch then trimStart rest else s
  | EmptyString => EmptyString
  end.

Fixpoint trimEnd (s : string) : string :=
  match s with
  | String ch rest =>
      match trimEnd rest with
      | EmptyString => if isWhiteSpace ch then EmptyString else String ch EmptyString
      | rest' => String ch rest'
      end
  | EmptyString => EmptyString
  end.

Definition trim (s : string) : string := trimEnd (trimStart s).

(** [array.indexOf(x)]: the first index holding [x]. *)
Fixpoint indexOf (x : string) (l : list string) : option nat :=
  match l with
  | [] => None
  | y :: rest => if bool_decide (y = x) then Some 0 else S <$> indexOf x rest
  end.

(** [array.includes(x)] *)
Definition includes (x : string) (l : list string) : bool :=
  bool_decide (x ∈ l).

(** A JS array that may have holes: [None] is a hole, which reads as
    [undefined].  [arraySet i v a] is [a[i] = v]: a write past the end
    extends the array and leaves holes in between. *)
Definition arraySet {A : Type} (i : nat) (v : A) (a : list (option A)) : list (option A) :=
  if bool_decide (i < length a)
  then <[i := Some v]> a
  else a ++ replicate (i - length a) None ++ [Some v].

(** A value of [Math.random()]: the number [numer / (numer + gap)], which
    lies in [0, 1) whatever the fields are.  Products with an integer are
    taken exactly; the code rounds the product to a double, which can
    move its floor to the next integer (0.7 * 10) and keeps it within
    [0 .. n - 1]. *)
Record Unit01 : Type := { numer : N; gap : positive }.

(** [Math.floor(r * n)] *)
Definition floorTimes (r : Unit01) (n : Z) : Z :=
  (Z.of_N (numer r) * n / (Z.of_N (numer r) + Z.pos (gap r)))%Z.

(** [r < 0.5] *)
Definition belowHalf (r : Unit01) : bool :=
  bool_decide (2 * Z.of_N (numer r) < Z.of_N (numer r) + Z.pos (gap r))%Z.

(** The global random source: the values [Math.random] will return, and
    how many of them were consumed. *)
Record Random : Type := { draws : nat -> Unit01; cursor : nat }.

Definition Math_random (g : Random) : Unit01 * Random :=
  (draws g (cursor g), {| draws := draws g; cursor := S (cursor g) |}).

(* ------------------------------------------------------------------ *)
(** ** Ship (src/Ship.js) *)

Record Ship : Type := { locations : list string; hits : list bool }.

(** [new Ship(locations)]: copies the locations, one false flag each.
    The constructor has no check and no [throw]. *)
Definition newShip (locs : list string) : Completion Ship :=
  Normal {| locations := locs; hits := replicate (length locs) false |}.

(** [ship.hit(location)].  [!this.hits[index]] is true for a false flag
    (and for a missing one).  [hits] has one flag per location from the
    constructor on, so [index] is always inside [hits] and the write
    never extends the array. *)
Definition hit (location : string) (s : Ship) : bool * Ship :=
  match indexOf location (locations s) with
  | Some index =>
      if negb (default false (hits s !! index))
      then (true, {| locations := locations s; hits := <[index := true]> (hits s) |})
      else (false, s)
  | None => (false, s)
  end.

(** [ship.isSunk()]: [this.hits.every(hit => hit)] *)
Definition isSunk (s : Ship) : bool := forallb (fun flag => flag) (hits s).

(** [ship.occupies(location)] *)
Definition occupies (s : Ship) (location : string) : bool :=
  includes location (locations s).

(* ------------------------------------------------------------------ *)
(** ** Board (src/Board.js) *)

(** The four grid symbols ['~'], ['S'], ['X'], ['O']. *)
Inductive Cell : Type := Water | ShipMark | HitMark | MissMark.

#[global] Instance Cell_eq_dec : EqDecision Cell.
Proof. solve_decision. Defined.

Abbreviation Grid := (list (list (option Cell))).

Record Board : Type := {
  size : nat;
  grid : Grid;
  ships : list Ship;
  guesses : gset string
}.

Definition withGrid (g : Grid) (b : Board) : Board :=
  {| size := size b; grid := g; ships := ships b; guesses := guesses b |}.

Definition withShips (l : list Ship) (b : Board) : Board :=
  {| size := size b; grid := grid b; ships := l; guesses := guesses b |}.

Definition withGuesses (s : gset string) (b : Board) : Board :=
  {| size := size b; grid := grid b; ships := ships b; guesses := s |}.

(** [createGrid()] *)
Definition createGrid (n : nat) : Grid := replicate n (replicate n (Some Water)).

(** [new Board(size)] *)
Definition newBoard (n : nat) : Board :=
  {| size := n; grid := createGrid n; ships := []; guesses := ∅ |}.

(** [parseCoordinate(coordinate)] *)
Definition parseCoordinate (coordinate : string) : Completion (JsNumber * JsNumber) :=
  match coordinate with
  | String c0 (String c1 EmptyString) => Normal (parseIntChar c0, parseIntChar c1)
  | _ => Throw (Error "Invalid coordinate format")
  end.

(** [isValidCoordinate(row, col)] *)
Definition isValidCoordinate (b : Board) (row col : JsNumber) : bool :=
  jsGe row 0 && jsLt row (Z.of_nat (size b))
  && jsGe col 0 && jsLt col (Z.of_nat (size b)).

(** [hasBeenGuessed(coordinate)] *)
Definition hasBeenGuessed (b : Board) (coordinate : string) : bool :=
  bool_decide (coordinate ∈ guesses b).

(** [g[row]]: the row array, or [undefined] ([None]) when [row] is no
    index of [g]. *)
Definition gridRow (g : Grid) (row : JsNumber) : option (list (option Cell)) :=
  match row with
  | Num z => if bool_decide (0 ≤ z)%Z then g !! Z.to_nat z else None
  | NaN => None
  end.

(** [g[row][col] === '~']; reading a property of [undefined] throws. *)
Definition gridIsWater (g : Grid) (row col : JsNumber) : Completion bool :=
  match gridRow g row with
  | None => Throw TypeError
  | Some cells =>
      match col with
      | Num z =>
          Normal (bool_decide (0 ≤ z)%Z && bool_decide (cells !! Z.to_nat z = Some (Some Water)))
      | NaN => Normal false
      end
  end.

(** [g[row][col] = v].  Writing a property of [undefined] throws.  A
    column that is no array index (NaN, negative) names an ordinary
    property of the row array and leaves its elements as they are. *)
Definition gridSet (row col : JsNumber) (v : Cell) (g : Grid) : Completion Grid :=
  match gridRow g row, row with
  | Some cells, Num r =>
      match col with
      | Num z =>
          if bool_decide (0 ≤ z)%Z
          then Normal (<[Z.to_nat r := arraySet (Z.to_nat z) v cells]> g)
          else Normal g
      | NaN => Normal g
      end
  | _, _ => Throw TypeError
  end.

Inductive Orientation : Type := Horizontal | Vertical.

(** [Math.floor(Math.random() * n)] *)
Definition randomFloor (n : Z) (g : Random) : Z * Random :=
  let '(r, g) := Math_random g in (floorTimes r n, g).

(** [getRandomStartPosition(shipLength, orientation)] *)
Definition getRandomStartPosition (b : Board) (shipLength : nat) (o : Orientation)
    (g : Random) : (Z * Z) * Random :=
  let span := (Z.of_nat (size b) - Z.of_nat shipLength + 1)%Z in
  let '(startRow, g) :=
    match o with
    | Horizontal => randomFloor (Z.of_nat (size b)) g
    | Vertical => randomFloor span g
    end in
  let '(startCol, g) :=
    match o with
    | Horizontal => randomFloor span g
    | Vertical => randomFloor (Z.of_nat (size b)) g
    end in
  ((startRow, startCol), g).

(** [generateShipLocations(startRow, startCol, shipLength, orientation)] *)
Definition generateShipLocations (startRow startCol : Z) (shipLength : nat)
    (o : Orientation) : list string :=
  (fun i : nat =>
     let row := match o with Horizontal => startRow | Vertical => (startRow + Z.of_nat i)%Z end in
     let col := match o with Horizontal => (startCol + Z.of_nat i)%Z | Vertical => startCol end in
     coordinateString row col) <$> seq 0 shipLength.

(** [canPlaceShip(locations)]: [every] stops at the first location that
    fails; [parseCoordinate] may throw on the way. *)
Fixpoint canPlaceShip (b : Board) (locs : list string) : Completion bool :=
  match locs with
  | [] => Normal true
  | location :: rest =>
      match parseCoordinate location with
      | Throw e => Throw e
      | Normal (row, col) =>
          if isValidCoordinate b row col
          then match gridIsWater (grid b) row col with
               | Throw e => Throw e
               | Normal true => canPlaceShip b rest
               | Normal false => Normal false
               end
          else Normal false
      end
  end.

(** The [forEach] of [placeShip]: mark every location with ['S']. *)
Fixpoint markShip (locs : list string) (g : Grid) : Completion unit * Grid :=
  match locs with
  | [] => (Normal tt, g)
  | location :: rest =>
      match parseCoordinate location with
      | Throw e => (Throw e, g)
      | Normal (row, col) =>
          match gridSet row col ShipMark g with
          | Throw e => (Throw e, g)
          | Normal g' => markShip rest g'
          end
      end
  end.

(** [placeShip(locations)] *)
Definition placeShip (locs : list string) (b : Board) : Completion unit * Board :=
  match newShip locs with
  | Throw e => (Throw e, b)
  | Normal ship =>
      let b := withShips (ships b ++ [ship]) b in
      let '(r, g') := markShip locs (grid b) in
      (r, withGrid g' b)
  end.

Definition placementMaxAttempts : nat := 1000.

(** One round of the [while] body of [placeShipsRandomly]: draw an
    orientation and a start, build the locations and place the ship when
    [canPlaceShip] allows it.  The result says whether a ship was placed. *)
Definition placementAttempt (shipLength : nat) (b : Board) (g : Random)
    : Completion bool * Board * Random :=
  let '(r, g) := Math_random g in
  let orientation := if belowHalf r then Horizontal else Vertical in
  let '((startRow, startCol), g) := getRandomStartPosition b shipLength orientation g in
  let shipLocations := generateShipLocations startRow startCol shipLength orientation in
  match canPlaceShip b shipLocations with
  | Throw e => (Throw e, b, g)
  | Normal true =>
      match placeShip shipLocations b with
      | (Throw e, b') => (Throw e, b', g)
      | (Normal _, b') => (Normal true, b', g)
      end
  | Normal false => (Normal false, b, g)
  end.

(** The [while (placedShips < numShips && attempts < maxAttempts)] loop;
    it returns the final [placedShips] and [attempts]. *)
Equations? placementLoop (numShips shipLength placedShips attempts : nat)
    (b : Board) (g : Random) : Completion (nat * nat) * Board * Random
    by wf (placementMaxAttempts - attempts) lt :=
  placementLoop numShips shipLength placedShips attempts b g
    with decide (placedShips < numShips ∧ attempts < placementMaxAttempts) := {
    | left _ with placementAttempt shipLength b g := {
        | (Normal true, b', g') =>
            placementLoop numShips shipLength (S placedShips) (S attempts) b' g'
        | (Normal false, b', g') =>
            placementLoop numShips shipLength placedShips (S attempts) b' g'
        | (Throw e, b', g') => (Throw e, b', g') }
    | right _ => (Normal (placedShips, attempts), b, g) }.
Proof. all: unfold placementMaxAttempts in *; lia. Qed.

(** The message of the error [placeShipsRandomly] throws. *)
Definition placementMessage (placedShips numShips : nat) : string :=
  String.append "Could only place "
    (String.append (numberToString (Z.of_nat placedShips))
       (String.append " out of "
          (String.append (numberToString (Z.of_nat numShips))
             (String.append " ships after "
                (String.append (numberToString (Z.of_nat placementMaxAttempts))
                   " attempts"))))).

(** [placeShipsRandomly(numShips, shipLength)] *)
Definition placeShipsRandomly (numShips shipLength : nat) (b : Board) (g : Random)
    : Completion unit * Board * Random :=
  match placementLoop numShips shipLength 0 0 b g with
  | (Throw e, b', g') => (Throw e, b', g')
  | (Normal (placedShips, _), b', g') =>
      if bool_decide (placedShips < numShips)
      then (Throw (Error (placementMessage placedShips numShips)), b', g')
      else (Normal tt, b', g')
  end.

(** The object [processGuess] returns.  [ship] is the reference to the
    ship that was hit, kept as its index in [ships]. *)
Record GuessResult : Type := {
  hitR : bool;
  sunk : bool;
  alreadyGuessed : bool;
  ship : option nat
}.

(** The [for (const ship of this.ships)] loop of [processGuess]: the first
    ship whose [hit] answers true, with its index and its [isSunk()] after
    the hit, and the ships as the calls of [hit] left them. *)
Fixpoint hitFirstShip (coordinate : string) (index : nat) (l : list Ship)
    : option (nat * bool) * list Ship :=
  match l with
  | [] => (None, [])
  | s :: rest =>
      let '(wasHit, s') := hit coordinate s in
      if wasHit
      then (Some (index, isSunk s'), s' :: rest)
      else let '(found, rest') := hitFirstShip coordinate (S index) rest in
           (found, s' :: rest')
  end.

(** [processGuess(coordinate)] *)
Definition processGuess (coordinate : string) (b : Board) : Completion GuessResult * Board :=
  if hasBeenGuessed b coordinate
  then (Normal {| hitR := false; sunk := false; alreadyGuessed := true; ship := None |}, b)
  else
    let b := withGuesses ({[coordinate]} ∪ guesses b) b in
    match parseCoordinate coordinate with
    | Throw e => (Throw e, b)
    | Normal (row, col) =>
        match hitFirstShip coordinate 0 (ships b) with
        | (Some (index, isSunkNow), l) =>
            let b := withShips l b in
            match gridSet row col HitMark (grid b) with
            | Throw e => (Throw e, b)
            | Normal g' =>
                (Normal {| hitR := true; sunk := isSunkNow; alreadyGuessed := false;
                           ship := Some index |},
                 withGrid g' b)
            end
        | (None, l) =>
            let b := withShips l b in
            match gridSet row col MissMark (grid b) with
            | Throw e => (Throw e, b)
            | Normal g' =>
                (Normal {| hitR := false; sunk := false; alreadyGuessed := false;
                           ship := None |},
                 withGrid g' b)
            end
        end
    end.

(** [allShipsSunk()] *)
Definition allShipsSunk (b : Board) : bool :=
  bool_decide (0 < length (ships b)) && forallb isSunk (ships b).

(** [getRemainingShipsCount()] *)
Definition getRemainingShipsCount (b : Board) : nat :=
  length (filter (fun s => isSunk s = false) (ships b)).

(* ------------------------------------------------------------------ *)
(** ** Player, HumanPlayer, CPUPlayer (src/Player.js) *)

Record Player : Type := {
  name : string;
  board : Board;
  opponentBoard : Board
}.

(** [new Player(name)]: both boards are [new Board()], of size 10. *)
Definition newPlayer (n : string) : Player :=
  {| name := n; board := newBoard 10; opponentBoard := newBoard 10 |}.

Definition withBoard (b : Board) (p : Player) : Player :=
  {| name := name p; board := b; opponentBoard := opponentBoard p |}.

Definition withOpponentBoard (b : Board) (p : Player) : Player :=
  {| name := name p; board := board p; opponentBoard := b |}.

(** [setupBoard(numShips, shipLength)] *)
Definition setupBoard (numShips shipLength : nat) (p : Player) (g : Random)
    : Completion unit * Player * Random :=
  let '(r, b', g') := placeShipsRandomly numShips shipLength (board p) g in
  (r, withBoard b' p, g').

(** [receiveGuess(coordinate)] *)
Definition receiveGuess (coordinate : string) (p : Player) : Completion GuessResult * Player :=
  let '(r, b') := processGuess coordinate (board p) in
  (r, withBoard b' p).

(** [isDefeated()] *)
Definition isDefeated (p : Player) : bool := allShipsSunk (board p).

(** [getRemainingShips()] *)
Definition getRemainingShips (p : Player) : nat := getRemainingShipsCount (board p).

(** What [validateGuess] returns: [{isValid: true, coordinate}] or
    [{isValid: false, error}]. *)
Inductive Validation : Type :=
| Valid (coordinate : string)
| Invalid (error : string).

(** [HumanPlayer.validateGuess(input)] *)
Definition validateGuess (p : Player) (input : string) : Validation :=
  match input with
  | String c0 (String c1 EmptyString) =>
      let row := parseIntChar c0 in
      let col := parseIntChar c1 in
      if isNaN row || isNaN col || jsLt row 0 || jsGe row 10 || jsLt col 0 || jsGe col 10
      then Invalid "Please enter valid row and column numbers between 0 and 9."
      else if hasBeenGuessed (opponentBoard p) input
      then Invalid "You already guessed that location!"
      else Valid input
  | _ => Invalid "Input must be exactly two digits (e.g., 00, 34, 98)."
  end.

Inductive Mode : Type := Hunt | Target.

(** [CPUPlayer extends Player]: the fields of [Player] are in [base]. *)
Record CPUPlayer : Type := {
  base : Player;
  mode : Mode;
  targetQueue : list string;
  lastHit : option string
}.

(** [new CPUPlayer(name)] *)
Definition newCPUPlayer (n : string) : CPUPlayer :=
  {| base := newPlayer n; mode := Hunt; targetQueue := []; lastHit := None |}.

Definition withBase (p : Player) (cpu : CPUPlayer) : CPUPlayer :=
  {| base := p; mode := mode cpu; targetQueue := targetQueue cpu; lastHit := lastHit cpu |}.

Definition withMode (m : Mode) (cpu : CPUPlayer) : CPUPlayer :=
  {| base := base cpu; mode := m; targetQueue := targetQueue cpu; lastHit := lastHit cpu |}.

Definition withTargetQueue (q : list string) (cpu : CPUPlayer) : CPUPlayer :=
  {| base := base cpu; mode := mode cpu; targetQueue := q; lastHit := lastHit cpu |}.

Definition withLastHit (c : option string) (cpu : CPUPlayer) : CPUPlayer :=
  {| base := base cpu; mode := mode cpu; targetQueue := targetQueue cpu; lastHit := c |}.

Definition huntMaxAttempts : nat := 100.

(** The body of the [do ... while] of [generateHuntGuess] up to
    [attempts++]: a random row, a random column and their coordinate. *)
Definition drawCoordinate (g : Random) : string * Random :=
  let '(row, g) := randomFloor 10 g in
  let '(col, g) := randomFloor 10 g in
  (coordinateString row col, g).

(** [do { ...; attempts++ } while (hasBeenGuessed(coordinate) && attempts < maxAttempts)];
    [attempts] is the count before the round.  It returns the last
    coordinate drawn and the final [attempts]. *)
Equations? huntLoop (ob : Board) (attempts : nat) (g : Random) : string * nat * Random
    by wf (huntMaxAttempts - attempts) lt :=
  huntLoop ob attempts g with drawCoordinate g := {
    | (coordinate, g')
        with decide (hasBeenGuessed ob coordinate = true ∧ S attempts < huntMaxAttempts) := {
        | left _ => huntLoop ob (S attempts) g'
        | right _ => (coordinate, S attempts, g') } }.
Proof. all: unfold huntMaxAttempts in *; lia. Qed.

(** The coordinates in the order the two nested [for] loops of the
    fallback visit them: row by row. *)
Definition scanOrder : list string :=
  row ← seq 0 10; col ← seq 0 10; [coordinateString (Z.of_nat row) (Z.of_nat col)].

(** The fallback of [generateHuntGuess]: the first coordinate of the scan
    that was not guessed, if there is one. *)
Definition fallbackScan (ob : Board) : option string :=
  find (fun coord => negb (hasBeenGuessed ob coord)) scanOrder.

(** [generateHuntGuess()] *)
Definition generateHuntGuess (cpu : CPUPlayer) (g : Random) : string * Random :=
  let ob := opponentBoard (base cpu) in
  let '(coordinate, attempts, g) := huntLoop ob 0 g in
  if bool_decide (huntMaxAttempts ≤ attempts)
  then match fallbackScan ob with
       | Some coord => (coord, g)
       | None => (coordinate, g)
       end
  else (coordinate, g).

(** [while (hasBeenGuessed(coordinate) && targetQueue.length > 0) coordinate = targetQueue.shift()] *)
Fixpoint shiftWhileGuessed (ob : Board) (coordinate : string) (queue : list string)
    : string * list string :=
  match queue with
  | next :: rest =>
      if hasBeenGuessed ob coordinate
      then shiftWhileGuessed ob next rest
      else (coordinate, queue)
  | [] => (coordinate, queue)
  end.

(** [generateGuess()] *)
Definition generateGuess (cpu : CPUPlayer) (g : Random) : string * CPUPlayer * Random :=
  match mode cpu, targetQueue cpu with
  | Target, first :: rest =>
      let '(coordinate, queue) := shiftWhileGuessed (opponentBoard (base cpu)) first rest in
      let cpu := withTargetQueue queue cpu in
      if hasBeenGuessed (opponentBoard (base cpu)) coordinate
      then let cpu := withMode Hunt cpu in
           let '(coordinate, g) := generateHuntGuess cpu g in
           (coordinate, cpu, g)
      else (coordinate, cpu, g)
  | _, _ =>
      let cpu := withMode Hunt cpu in
      let '(coordinate, g) := generateHuntGuess cpu g in
      (coordinate, cpu, g)
  end.

(** [`${n}`] for a number that may be NaN. *)
Definition jsToString (a : JsNumber) : string :=
  match a with
  | Num z => numberToString z
  | NaN => "NaN"
  end.

(** The array [adjacent] of [addAdjacentTargets]: up, down, left, right. *)
Definition adjacentCells (row col : JsNumber) : list (JsNumber * JsNumber) :=
  [ (jsAdd row (-1), col); (jsAdd row 1, col); (row, jsAdd col (-1)); (row, jsAdd col 1) ].

(** The callback of [adjacent.forEach] in [addAdjacentTargets]. *)
Definition addTarget (ob : Board) (queue : list string) (cell : JsNumber * JsNumber)
    : list string :=
  let '(r, c) := cell in
  if isValidCoordinate ob r c
  then let adjCoordinate := String.append (jsToString r) (jsToString c) in
       if negb (hasBeenGuessed ob adjCoordinate) && negb (includes adjCoordinate queue)
       then queue ++ [adjCoordinate]
       else queue
  else queue.

(** [addAdjacentTargets(coordinate)] *)
Definition addAdjacentTargets (coordinate : string) (cpu : CPUPlayer)
    : Completion unit * CPUPlayer :=
  match parseCoordinate coordinate with
  | Throw e => (Throw e, cpu)
  | Normal (row, col) =>
      (Normal tt,
       withTargetQueue
         (foldl (addTarget (opponentBoard (base cpu))) (targetQueue cpu) (adjacentCells row col))
         cpu)
  end.

Definition withTracking (ob : Board) (cpu : CPUPlayer) : CPUPlayer :=
  withBase (withOpponentBoard ob (base cpu)) cpu.

(** [processGuessResult(coordinate, result)] *)
Definition processGuessResult (coordinate : string) (result : GuessResult) (cpu : CPUPlayer)
    : Completion unit * CPUPlayer :=
  match parseCoordinate coordinate with
  | Throw e => (Throw e, cpu)
  | Normal (row, col) =>
      let ob := opponentBoard (base cpu) in
      let ob := withGuesses ({[coordinate]} ∪ guesses ob) ob in
      let cpu := withTracking ob cpu in
      if hitR result
      then
        match gridSet row col HitMark (grid ob) with
        | Throw e => (Throw e, cpu)
        | Normal g' =>
            let cpu := withTracking (withGrid g' ob) cpu in
            let cpu := withLastHit (Some coordinate) cpu in
            if sunk result
            then (Normal tt, withTargetQueue [] (withMode Hunt cpu))
            else addAdjacentTargets coordinate (withMode Target cpu)
        end
      else
        match gridSet row col MissMark (grid ob) with
        | Throw e => (Throw e, cpu)
        | Normal g' =>
            let cpu := withTracking (withGrid g' ob) cpu in
            match mode cpu, targetQueue cpu with
            | Target, [] => (Normal tt, withMode Hunt cpu)
            | _, _ => (Normal tt, cpu)
            end
        end
  end.

(* ------------------------------------------------------------------ *)
(** ** Game (src/Game.js) *)

Record Game : Type := {
  boardSize : nat;
  numShips : nat;
  shipLength : nat;
  humanPlayer : Player;
  cpuPlayer : CPUPlayer;
  gameOver : bool
}.

(** The calls the game makes on its [Display]. *)
Inductive DisplayCall : Type :=
| ShowPlayerTurnPrompt
| ShowError (message : string)
| ShowPlayerGuessResult (coordinate : string) (result : GuessResult)
| ShowCPUTurn
| ShowCPUGuessResult (coordinate : string) (result : GuessResult) (m : Mode).

Definition withHuman (p : Player) (gm : Game) : Game :=
  {| boardSize := boardSize gm; numShips := numShips gm; shipLength := shipLength gm;
     humanPlayer := p; cpuPlayer := cpuPlayer gm; gameOver := gameOver gm |}.

Definition withCPU (cpu : CPUPlayer) (gm : Game) : Game :=
  {| boardSize := boardSize gm; numShips := numShips gm; shipLength := shipLength gm;
     humanPlayer := humanPlayer gm; cpuPlayer := cpu; gameOver := gameOver gm |}.

(** [handlePlayerTurn()], from the line [input] that [rl.question] hands
    to the callback.  The result is the value the promise resolves to and
    the display calls made. *)
Definition handlePlayerTurn (input : string) (gm : Game)
    : Completion (bool * list DisplayCall) * Game :=
  match validateGuess (humanPlayer gm) (trim input) with
  | Invalid error => (Normal (false, [ShowPlayerTurnPrompt; ShowError error]), gm)
  | Valid coordinate =>
      match receiveGuess coordinate (base (cpuPlayer gm)) with
      | (Throw e, p') => (Throw e, withCPU (withBase p' (cpuPlayer gm)) gm)
      | (Normal result, p') =>
          let gm := withCPU (withBase p' (cpuPlayer gm)) gm in
          match processGuess coordinate (opponentBoard (humanPlayer gm)) with
          | (Throw e, ob') => (Throw e, withHuman (withOpponentBoard ob' (humanPlayer gm)) gm)
          | (Normal _, ob') =>
              (Normal (true, [ShowPlayerTurnPrompt; ShowPlayerGuessResult coordinate result]),
               withHuman (withOpponentBoard ob' (humanPlayer gm)) gm)
          end
      end
  end.

(** [handleCPUTurn()] *)
Definition handleCPUTurn (gm : Game) (g : Random)
    : Completion (list DisplayCall) * Game * Random :=
  let '(cpuGuess, cpu, g) := generateGuess (cpuPlayer gm) g in
  let gm := withCPU cpu gm in
  match receiveGuess cpuGuess (humanPlayer gm) with
  | (Throw e, p') => (Throw e, withHuman p' gm, g)
  | (Normal result, p') =>
      let gm := withHuman p' gm in
      match processGuessResult cpuGuess result (cpuPlayer gm) with
      | (Throw e, cpu') => (Throw e, withCPU cpu' gm, g)
      | (Normal _, cpu') =>
          (Normal [ShowCPUTurn; ShowCPUGuessResult cpuGuess result (mode cpu')],
           withCPU cpu' gm, g)
      end
  end.

Definition withGameOver (flag : bool) (gm : Game) : Game :=
  {| boardSize := boardSize gm; numShips := numShips gm; shipLength := shipLength gm;
     humanPlayer := humanPlayer gm; cpuPlayer := cpuPlayer gm; gameOver := flag |}.

(** [checkGameOver()] *)
Definition checkGameOver (gm : Game) : bool * Game :=
  if isDefeated (base (cpuPlayer gm)) || isDefeated (humanPlayer gm)
  then (true, withGameOver true gm)
  else (false, gm).

(* ------------------------------------------------------------------ *)
(** ** Notions the properties are stated with *)

(** The ship after a series of [hit] calls, in order. *)
Definition hitAll (shots : list string) (s : Ship) : Ship :=
  foldl (fun s shot => (hit shot s).2) s shots.

(** What [processGuess] answers for a repeated guess. *)
Definition repeatedGuess : GuessResult :=
  {| hitR := false; sunk := false; alreadyGuessed := true; ship := None |}.

(** [g[row][col]] for two array indices: the symbol there, [None] when
    the read gives [undefined]. *)
Definition cellAt (g : Grid) (row col : nat) : option Cell :=
  match g !! row with
  | Some cells => mjoin (cells !! col)
  | None => None
  end.

(** The cells next to [(row, col)] in the order up, down, left, right. *)
Definition neighbours (row col : Z) : list (Z * Z) :=
  [ (row - 1, col); (row + 1, col); (row, col - 1); (row, col + 1) ]%Z.

(** The neighbours of [(row, col)] that lie on a board of size [n], as
    coordinate strings, in the same order. *)
Definition inBoundsNeighbours (n : nat) (row col : Z) : list string :=
  (fun cell : Z * Z => coordinateString cell.1 cell.2)
    <$> filter (fun cell : Z * Z =>
                  (0 ≤ cell.1 < Z.of_nat n)%Z ∧ (0 ≤ cell.2 < Z.of_nat n)%Z)
               (neighbours row col).

(** Those of them that are not in the guessed-set of [ob]. *)
Definition openNeighbours (ob : Board) (row col : Z) : list string :=
  filter (fun adj : string => adj ∉ guesses ob) (inBoundsNeighbours (size ob) row col).

(** The result [{hit: true, sunk: false}] and [{hit: true, sunk: true}]
    of a guess, as [processGuessResult] gets them. *)
Definition hitNotSunk : GuessResult :=
  {| hitR := true; sunk := false; alreadyGuessed := false; ship := None |}.

Definition hitAndSunk : GuessResult :=
  {| hitR := true; sunk := true; alreadyGuessed := false; ship := None |}.

(** A CPU player whose tracking board has every coordinate of the 10x10
    board in its guessed-set except ["09"]. *)
Definition cpuAllGuessedBut09 : CPUPlayer :=
  withTracking
    (withGuesses (list_to_set (filter (fun coord : string => coord ≠ "09") scanOrder))
                 (newBoard 10))
    (newCPUPlayer "CPU").

(** A random source whose every value is 0. *)
Definition zeroSource : Random :=
  {| draws := fun _ => {| numer := 0; gap := 1 |}; cursor := 0 |}.

(** [c] is an in-bounds coordinate of [b]: two digits, both below the
    size of the board. *)
Definition inBounds (b : Board) (c : string) : Prop :=
  ∃ row col : Z,
    parseCoordinate c = Normal (Num row, Num col) ∧
    isValidCoordinate b (Num row) (Num col) = true.

(** [c] is an in-bounds coordinate of [b] whose grid cell is not water. *)
Definition occupied (b : Board) (c : string) : Prop :=
  ∃ row col : Z,
    parseCoordinate c = Normal (Num row, Num col) ∧
    isValidCoordinate b (Num row) (Num col) = true ∧
    cellAt (grid b) (Z.to_nat row) (Z.to_nat col) ≠ Some Water.

(** Every cell of every ship of [l] is marked on the grid of [b]. *)
Definition marked (l : list Ship) (b : Board) : Prop :=
  ∀ (s : Ship) (c : string), s ∈ l → c ∈ locations s → occupied b c.

(** No two ships of [l] share a coordinate. *)
Definition disjointShips (l : list Ship) : Prop :=
  ∀ (i j : nat) (s t : Ship) (c : string),
    i ≠ j → l !! i = Some s → l !! j = Some t → c ∈ locations s → c ∉ locations t.

(** The invariant of a board's ships: they are marked on its grid and
    pairwise disjoint. *)
Definition shipsConsistent (b : Board) : Prop :=
  marked (ships b) b ∧ disjointShips (ships b).

(** A random source that runs through 0, 0.1, ..., 0.9 again and again. *)
Definition tenthsSource : Random :=
  {| draws := fun i => {| numer := N.of_nat (i mod 10); gap := Pos.of_nat (10 - i mod 10) |};
     cursor := 0 |}.

(** The locations one round of [placeShipsRandomly] draws: the first
    four statements of the loop body after [attempts++]. *)
Definition drawnLocations (shipLength : nat) (b : Board) (g : Random)
    : list string * Random :=
  let '(r, g) := Math_random g in
  let orientation := if belowHalf r then Horizontal else Vertical in
  let '((startRow, startCol), g) := getRandomStartPosition b shipLength orientation g in
  (generateShipLocations startRow startCol shipLength orientation, g).

(** A game right after set-up, with one CPU ship on ["00"], ["01"], ["02"]. *)
Definition gameWithShipAt00 : Game :=
  {| boardSize := 10; numShips := 1; shipLength := 3;
     humanPlayer := newPlayer "Player";
     cpuPlayer :=
       withBase (withBoard (placeShip ["00"; "01"; "02"] (newBoard 10)).2 (newPlayer "CPU"))
                (newCPUPlayer "CPU");
     gameOver := false |}.

(** What [processGuess] answers for a miss. *)
Definition missResult : GuessResult :=
  {| hitR := false; sunk := false; alreadyGuessed := false; ship := None |}.

(** A ship as the constructor and [hit] leave it: one flag per location. *)
Definition shipShape (s : Ship) : Prop := length (hits s) = length (locations s).

(** In Hunt mode nothing is queued. *)
Definition huntQueueEmpty (cpu : CPUPlayer) : Prop :=
  mode cpu = Hunt → targetQueue cpu = [].

(** Every queued target is a coordinate of the 10x10 board. *)
Definition queueOnBoard (cpu : CPUPlayer) : Prop :=
  ∀ q : string, q ∈ targetQueue cpu → q ∈ scanOrder.

(** A board as [new Board()] makes it and the game keeps it: size 10,
    with its ten rows. *)
Definition standardBoard (b : Board) : Prop :=
  size b = 10 ∧ length (grid b) = 10.

(** A CPU player whose tracking board has every coordinate of the 10x10
    board in its guessed-set. *)
Definition cpuAllGuessed : CPUPlayer :=
  withTracking (withGuesses (list_to_set scanOrder) (newBoard 10)) (newCPUPlayer "CPU").

(** The states of a CPU player in a game: [new CPUPlayer(name)], and from
    there whatever the calls the game makes on it leave, however they
    end: [setupBoard] (in [setupPlayers]), [receiveGuess] (in
    [handlePlayerTurn]), [generateGuess] and [processGuessResult] (in
    [handleCPUTurn]), with any arguments. *)
Inductive reachable : CPUPlayer → Prop :=
| reachable_new (n : string) :
    reachable (newCPUPlayer n)
| reachable_setupBoard (cpu : CPUPlayer) (numShips shipLength : nat) (g : Random) :
    reachable cpu →
    reachable (withBase (setupBoard numShips shipLength (base cpu) g).1.2 cpu)
| reachable_receiveGuess (cpu : CPUPlayer) (coordinate : string) :
    reachable cpu →
    reachable (withBase (receiveGuess coordinate (base cpu)).2 cpu)
| reachable_generateGuess (cpu : CPUPlayer) (g : Random) :
    reachable cpu →
    reachable (generateGuess cpu g).1.2
| reachable_processGuessResult (cpu : CPUPlayer) (coordinate : string) (result : GuessResult) :
    reachable cpu →
    reachable (processGuessResult coordinate result cpu).2.

(** The CPU player after a hit on ["44"] and a hit on ["45"] that sank
    the ship: back in Hunt mode, with both coordinates guessed. *)
Definition cpuAfterSinking : CPUPlayer :=
  (processGuessResult "45" hitAndSunk
     (processGuessResult "44" hitNotSunk (newCPUPlayer "CPU")).2).2.

(* ------------------------------------------------------------------ *)
(** ** Ship *)

Section ShipFacts.

Lemma indexOf_None (x : string) (l : list string) :
  indexOf x l = None ↔ x ∉ l.
Proof.
  induction l as [|y l IH]; simpl.
  - split; [intros _; apply not_elem_of_nil | done].
  - case_bool_decide as Hxy.
    + subst. split; [done | intros H; exfalso; apply H; left].
    + rewrite not_elem_of_cons, <- IH. destruct (indexOf x l); simpl; naive_solver.
Qed.

Lemma indexOf_lookup (x : string) (l : list string) (i : nat) :
  indexOf x l = Some i → l !! i = Some x.
Proof.
  revert i. induction l as [|y l IH]; intros i; simpl; [done|].
  case_bool_decide as Hxy.
  - intros [= <-]. by subst.
  - destruct (indexOf x l) as [j|] eqn:E; simpl; [|done].
    intros [= <-]. simpl. by apply IH.
Qed.

Lemma indexOf_NoDup (l : list string) (i : nat) (x : string) :
  NoDup l → l !! i = Some x → indexOf x l = Some i.
Proof.
  intros Hnd Hi.
  destruct (indexOf x l) as [j|] eqn:E.
  - f_equal. apply indexOf_lookup in E. symmetry. by eapply NoDup_lookup.
  - apply indexOf_None in E. exfalso. apply E. by eapply list_elem_of_lookup_2.
Qed.

Lemma hit_locations (x : string) (s : Ship) : locations (hit x s).2 = locations s.
Proof.
  unfold hit. destruct (indexOf x (locations s)); [|done].
  by destruct (negb _).
Qed.

Lemma hit_hits_length (x : string) (s : Ship) : length (hits (hit x s).2) = length (hits s).
Proof.
  unfold hit. destruct (indexOf x (locations s)); [|done].
  destruct (negb _); simpl; [|done]. by rewrite length_insert.
Qed.

Lemma hit_false_same (x : string) (s : Ship) : (hit x s).1 = false → (hit x s).2 = s.
Proof.
  unfold hit. destruct (indexOf x (locations s)); [|done].
  by destruct (negb _).
Qed.

(** One [hit] on a ship with distinct locations and one flag per
    location: the flag of the location named is set, the others stay. *)
Lemma hit_flags (x : string) (s : Ship) (i : nat) (l : string) :
  NoDup (locations s) → length (hits s) = length (locations s) →
  locations s !! i = Some l →
  hits (hit x s).2 !! i
  = (fun flag => flag || bool_decide (l = x)) <$> hits s !! i.
Proof.
  intros Hnd Hlen Hl.
  assert (Hi : i < length (hits s)) by (rewrite Hlen; by eapply lookup_lt_Some).
  destruct (lookup_lt_is_Some_2 _ _ Hi) as [flag Hflag].
  unfold hit. destruct (indexOf x (locations s)) as [j|] eqn:E.
  - pose proof (indexOf_lookup _ _ _ E) as Hj.
    destruct (decide (i = j)) as [->|Hij].
    + assert (l = x) as -> by congruence.
      rewrite Hflag. simpl. destruct flag; simpl.
      * rewrite Hflag. simpl. done.
      * rewrite list_lookup_insert_eq by done. simpl. by rewrite bool_decide_eq_true_2.
    + assert (l ≠ x).
      { intros ->. apply Hij. by eapply NoDup_lookup. }
      rewrite bool_decide_eq_false_2 by done.
      destruct (negb _); simpl.
      * rewrite list_lookup_insert_ne by done. rewrite Hflag. simpl. by rewrite orb_false_r.
      * rewrite Hflag. simpl. by rewrite orb_false_r.
  - apply indexOf_None in E.
    assert (l ≠ x).
    { intros ->. apply E. by eapply list_elem_of_lookup_2. }
    rewrite bool_decide_eq_false_2 by done. rewrite Hflag. simpl. by rewrite orb_false_r.
Qed.

(** The flags after a series of hits on a fresh ship: flag [i] is up
    exactly when location [i] was among the shots. *)
Lemma hitAll_flags (shots : list string) (s : Ship) (fired : list string) :
  NoDup (locations s) → length (hits s) = length (locations s) →
  (∀ (i : nat) (l : string), locations s !! i = Some l → hits s !! i = Some (bool_decide (l ∈ fired))) →
  locations (hitAll shots s) = locations s ∧
  length (hits (hitAll shots s)) = length (locations s) ∧
  ∀ (i : nat) (l : string), locations s !! i = Some l →
         hits (hitAll shots s) !! i = Some (bool_decide (l ∈ fired ++ shots)).
Proof.
  revert s fired. induction shots as [|x shots IH]; intros s fired Hnd Hlen Hflags.
  - simpl. rewrite app_nil_r. done.
  - unfold hitAll. simpl. fold (hitAll shots (hit x s).2).
    destruct (IH (hit x s).2 (fired ++ [x])) as (IH1 & IH2 & IH3).
    + by rewrite hit_locations.
    + by rewrite hit_hits_length, hit_locations.
    + rewrite hit_locations. intros i l Hl.
      rewrite (hit_flags x s i l) by done. rewrite (Hflags i l Hl). simpl. f_equal.
      apply eq_true_iff_eq. rewrite orb_true_iff, !bool_decide_eq_true.
      rewrite elem_of_app, list_elem_of_singleton. done.
    + rewrite hit_locations in IH1, IH2, IH3. split_and!; [done..|].
      intros i l Hl. rewrite (IH3 i l Hl). by rewrite <- app_assoc.
Qed.

Lemma isSunk_flags (s : Ship) :
  isSunk s = true ↔ ∀ i flag, hits s !! i = Some flag → flag = true.
Proof.
  unfold isSunk. rewrite forallb_forall. split.
  - intros H i flag Hi. apply H. apply list_elem_of_In. by eapply list_elem_of_lookup_2.
  - intros H flag Hin. apply list_elem_of_In, list_elem_of_lookup in Hin as [i Hi]. by eapply H.
Qed.

End ShipFacts.

(** C7 (as the code has it).  [new Ship(locations)] never fails: for
    every sequence of locations, an empty one and one with duplicates
    included, it returns a ship that holds the sequence as given, with one
    hit flag per location, every flag false; the ship counts as sunk at
    once exactly when the sequence is empty. *)
Theorem newShip_always_succeeds (locs : list string) :
  ∃ s : Ship,
    newShip locs = Normal s ∧
    locations s = locs ∧
    length (hits s) = length locs ∧
    (∀ (i : nat) (flag : bool), hits s !! i = Some flag → flag = false) ∧
    (isSunk s = true ↔ locs = []).
Proof.
  eexists. split; [reflexivity|]. simpl. split_and!.
  - done.
  - by rewrite length_replicate.
  - intros i flag Hi. by apply lookup_replicate in Hi as [-> _].
  - unfold isSunk. simpl. destruct locs; simpl; [done|]. split; done.
Qed.

(** C7 fails on the code: the empty sequence and a sequence that names
    ["00"] twice both yield a ship, no error. *)
Lemma newShip_accepts_empty_and_duplicates :
  newShip [] = Normal {| locations := []; hits := [] |} ∧
  newShip ["00"; "00"] = Normal {| locations := ["00"; "00"]; hits := [false; false] |} ∧
  ¬ (∀ locs : list string, locs = [] ∨ ¬ NoDup locs → ∃ e, newShip locs = Throw e).
Proof.
  split_and!; [reflexivity..|].
  intros H. destruct (H []) as [e He]; [by left|]. discriminate He.
Qed.

(** C8.  Take a ship created on N distinct cells and any series of [hit]
    calls on it.  [isSunk()] is true iff every hit flag is true, and that
    is the case iff every cell of the ship was among the shots: after
    hits on all N cells it is true, after hits on N-1 distinct cells of
    the ship it is false, and a ship created on no cell is sunk from the
    start. *)
Theorem isSunk_after_hits (locs shots : list string) (s0 : Ship) :
  NoDup locs → newShip locs = Normal s0 →
  let s := hitAll shots s0 in
  (isSunk s = true ↔ ∀ (i : nat) (flag : bool), hits s !! i = Some flag → flag = true) ∧
  length (hits s) = length locs ∧
  (isSunk s = true ↔ ∀ l : string, l ∈ locs → l ∈ shots) ∧
  ((∀ l : string, l ∈ locs → l ∈ shots) → isSunk s = true) ∧
  (NoDup shots → (∀ l : string, l ∈ shots → l ∈ locs) →
   length shots + 1 = length locs → isSunk s = false) ∧
  (locs = [] → isSunk s0 = true).
Proof.
  intros Hnd [= <-] s.
  assert (Hfresh : ∀ (i : nat) (l : string), locs !! i = Some l →
            replicate (length locs) false !! i = Some (bool_decide (l ∈ @nil string))).
  { intros i l Hl. rewrite lookup_replicate_2 by (by eapply lookup_lt_Some).
    f_equal. }
  pose proof (hitAll_flags shots {| locations := locs; hits := replicate (length locs) false |} []
                Hnd (length_replicate _ _) Hfresh) as (Hloc & Hlen & Hflags).
  simpl in Hloc, Hlen, Hflags. fold s in Hloc, Hlen, Hflags.
  assert (Hiff : isSunk s = true ↔ ∀ l : string, l ∈ locs → l ∈ shots).
  { rewrite isSunk_flags. split.
    - intros H l Hl. apply list_elem_of_lookup in Hl as [i Hi].
      specialize (H i _ (Hflags i l Hi)). by apply bool_decide_eq_true in H.
    - intros H i flag Hi.
      assert (Hlt : i < length locs) by (rewrite <- Hlen; by eapply lookup_lt_Some).
      destruct (lookup_lt_is_Some_2 _ _ Hlt) as [l Hl].
      rewrite (Hflags i l Hl) in Hi. injection Hi as <-.
      apply bool_decide_eq_true. apply H. by eapply list_elem_of_lookup_2. }
  split_and!.
  - apply isSunk_flags.
  - done.
  - done.
  - apply Hiff.
  - intros _ _ Hcount. apply not_true_is_false. intros E.
    pose proof (submseteq_length _ _ (NoDup_submseteq _ _ Hnd (proj1 Hiff E))). lia.
  - intros ->. reflexivity.
Qed.

Lemma isSunk_after_hits_witness :
  isSunk (hitAll ["02"; "00"; "01"] {| locations := ["00"; "01"; "02"];
                                       hits := [false; false; false] |}) = true.
Proof.
  assert (Hnd : NoDup ["00"; "01"; "02"]) by compute_done.
  apply (isSunk_after_hits ["00"; "01"; "02"] ["02"; "00"; "01"] _ Hnd eq_refl).
  intros l Hl. apply list_elem_of_In in Hl. simpl in Hl.
  destruct Hl as [<-|[<-|[<-|[]]]]; compute_done.
Defined.

(* ------------------------------------------------------------------ *)
(** ** Board: guess resolution *)

(** After [processGuess(c)], however it ends, [c] is in the guessed-set. *)
Lemma processGuess_records (c : string) (b : Board) :
  hasBeenGuessed (processGuess c b).2 c = true.
Proof.
  unfold processGuess. destruct (hasBeenGuessed b c) eqn:E; [done|].
  assert (∀ b', guesses b' = {[c]} ∪ guesses b → hasBeenGuessed b' c = true) as H.
  { intros b' Hb'. unfold hasBeenGuessed. rewrite Hb'. apply bool_decide_eq_true. set_solver. }
  destruct (parseCoordinate c) as [[row col]|e]; [|by apply H].
  destruct (hitFirstShip c 0 _) as [[[index sunkNow]|] l]; simpl;
    destruct (gridSet _ _ _ _); simpl; by apply H.
Qed.

(** C1.  A guess at a coordinate that is already in the guessed-set
    returns [{hit: false, sunk: false, alreadyGuessed: true}] and leaves
    the board as it was: the same grid, the same guessed-set, the same
    ships with the same hit flags. *)
Theorem processGuess_already_guessed (b : Board) (c : string) :
  hasBeenGuessed b c = true →
  ∃ b' : Board,
    processGuess c b = (Normal repeatedGuess, b') ∧
    grid b' = grid b ∧ guesses b' = guesses b ∧ ships b' = ships b ∧
    (∀ (i : nat) (s : Ship), ships b !! i = Some s →
       ∃ s', ships b' !! i = Some s' ∧ hits s' = hits s ∧ locations s' = locations s) ∧
    b' = b.
Proof.
  intros Hc. exists b. unfold processGuess. rewrite Hc. split_and!; try done.
  intros i s Hs. by exists s.
Qed.

Lemma processGuess_already_guessed_witness :
  ∃ b' : Board,
    processGuess "24" (processGuess "24" (placeShip ["23"; "24"; "25"] (newBoard 10)).2).2
    = (Normal repeatedGuess, b').
Proof.
  destruct (processGuess_already_guessed
              (processGuess "24" (placeShip ["23"; "24"; "25"] (newBoard 10)).2).2 "24")
    as (b' & H & _).
  - apply processGuess_records.
  - by exists b'.
Defined.

(* ------------------------------------------------------------------ *)
(** ** Game: the human turn *)

(** C3 (the code at a hit).  The human guesses ["00"], where a CPU ship
    lies.  The CPU board answers with a hit and marks the cell ['X']; the
    human's tracking board, which gets the coordinate through its own
    [processGuess] and not the result, marks the same cell ['O'], a miss. *)
Theorem handlePlayerTurn_hit_tracked_as_miss :
  ∃ (result : GuessResult) (gm' : Game),
    handlePlayerTurn "00" gameWithShipAt00
    = (Normal (true, [ShowPlayerTurnPrompt; ShowPlayerGuessResult "00" result]), gm') ∧
    hitR result = true ∧
    cellAt (grid (board (base (cpuPlayer gm')))) 0 0 = Some HitMark ∧
    cellAt (grid (opponentBoard (humanPlayer gm'))) 0 0 = Some MissMark.
Proof.
  eexists _, _. split; [vm_compute; reflexivity|].
  split_and!; reflexivity.
Qed.

(* ------------------------------------------------------------------ *)
(** ** Coordinates and grid cells *)

Section Coordinates.

Lemma parseIntChar_digit (ch : ascii) (z : Z) :
  parseIntChar ch = Num z → (0 ≤ z ≤ 9)%Z.
Proof.
  unfold parseIntChar.
  destruct (bool_decide (48 ≤ _) && _) eqn:E; [|done].
  apply andb_true_iff in E as [E1 E2].
  apply bool_decide_eq_true in E1, E2. intros [= <-]. lia.
Qed.

Lemma digit_cases (z : Z) :
  (0 ≤ z ≤ 9)%Z →
  z ∈ [0; 1; 2; 3; 4; 5; 6; 7; 8; 9]%Z.
Proof.
  intros H. assert (z = 0 ∨ z = 1 ∨ z = 2 ∨ z = 3 ∨ z = 4 ∨ z = 5 ∨ z = 6 ∨ z = 7
                    ∨ z = 8 ∨ z = 9)%Z as Hz by lia.
  set_unfold. tauto.
Qed.

(** Two digits print as a two-character coordinate that parses back. *)
Lemma parse_coordinateString (row col : Z) :
  (0 ≤ row ≤ 9)%Z → (0 ≤ col ≤ 9)%Z →
  parseCoordinate (coordinateString row col) = Normal (Num row, Num col).
Proof.
  intros Hr Hc. apply digit_cases in Hr, Hc.
  repeat (apply elem_of_cons in Hr as [->|Hr]; [|]);
    try (by apply elem_of_nil in Hr);
    repeat (apply elem_of_cons in Hc as [->|Hc]; [|]);
    try (by apply elem_of_nil in Hc); reflexivity.
Qed.

Lemma parseIntChar_inv (ch : ascii) (z : Z) :
  parseIntChar ch = Num z → String ch EmptyString = numberToString z.
Proof.
  unfold parseIntChar. pose proof (ascii_nat_embedding ch) as Hch.
  remember (nat_of_ascii ch) as code eqn:Hcode. clear Hcode. subst ch.
  destruct (bool_decide (48 ≤ code) && bool_decide (code ≤ 57)) eqn:E; [|done].
  apply andb_true_iff in E as [E1 E2].
  apply bool_decide_eq_true in E1, E2. intros [= <-].
  assert (code = 48 ∨ code = 49 ∨ code = 50 ∨ code = 51 ∨ code = 52 ∨ code = 53
          ∨ code = 54 ∨ code = 55 ∨ code = 56 ∨ code = 57) as Hcases by lia.
  repeat destruct Hcases as [->|Hcases]; try rewrite Hcases; reflexivity.
Qed.

(** A string that parses to two numbers is the coordinate of the two. *)
Lemma parseCoordinate_inv (c : string) (row col : Z) :
  parseCoordinate c = Normal (Num row, Num col) →
  (0 ≤ row ≤ 9)%Z ∧ (0 ≤ col ≤ 9)%Z ∧ c = coordinateString row col.
Proof.
  destruct c as [|c0 [|c1 [|]]]; simpl; try done.
  intros [= H0 H1].
  pose proof (parseIntChar_digit _ _ H0) as Hr.
  pose proof (parseIntChar_digit _ _ H1) as Hc.
  split; [done|]. split; [done|].
  unfold coordinateString.
  rewrite <- (parseIntChar_inv _ _ H0), <- (parseIntChar_inv _ _ H1). reflexivity.
Qed.

Lemma isValidCoordinate_spec (b : Board) (row col : Z) :
  isValidCoordinate b (Num row) (Num col) = true
  ↔ (0 ≤ row < Z.of_nat (size b))%Z ∧ (0 ≤ col < Z.of_nat (size b))%Z.
Proof.
  unfold isValidCoordinate, jsGe, jsLt.
  rewrite !andb_true_iff, !bool_decide_eq_true. lia.
Qed.

Lemma arraySet_lookup {A : Type} (i : nat) (v : A) (a : list (option A)) :
  arraySet i v a !! i = Some (Some v).
Proof.
  unfold arraySet. case_bool_decide.
  - by rewrite list_lookup_insert_eq.
  - rewrite lookup_app_r by lia. rewrite lookup_app_r; rewrite length_replicate; [|lia].
    by replace (i - length a - (i - length a)) with 0 by lia.
Qed.

Lemma arraySet_lookup_ne {A : Type} (i j : nat) (v : A) (a : list (option A)) :
  i ≠ j → mjoin (arraySet i v a !! j) = mjoin (a !! j).
Proof.
  intros Hij. unfold arraySet. case_bool_decide.
  - by rewrite list_lookup_insert_ne.
  - destruct (decide (j < length a)).
    + by rewrite lookup_app_l.
    + rewrite (lookup_ge_None_2 a j) by lia. rewrite lookup_app_r by lia.
      destruct (decide (j - length a < i - length a)).
      * rewrite lookup_app_l by (rewrite length_replicate; lia).
        by rewrite lookup_replicate_2.
      * rewrite lookup_app_r by (rewrite length_replicate; lia).
        rewrite length_replicate.
        destruct (j - length a - (i - length a)) as [|k] eqn:E; [lia|done].
Qed.

(** A write at a cell of an existing row succeeds, keeps the number of
    rows, stores the symbol and touches no other cell. *)
Lemma gridSet_row (g : Grid) (row col : Z) (v : Cell) :
  (0 ≤ row < Z.of_nat (length g))%Z → (0 ≤ col)%Z →
  ∃ g' : Grid,
    gridSet (Num row) (Num col) v g = Normal g' ∧
    length g' = length g ∧
    cellAt g' (Z.to_nat row) (Z.to_nat col) = Some v ∧
    ∀ r k : nat, (r, k) ≠ (Z.to_nat row, Z.to_nat col) → cellAt g' r k = cellAt g r k.
Proof.
  intros Hrow Hcol.
  destruct (lookup_lt_is_Some_2 g (Z.to_nat row)) as [cells Hcells]; [lia|].
  assert (gridRow g (Num row) = Some cells) as Hget.
  { unfold gridRow. by rewrite bool_decide_eq_true_2 by lia. }
  unfold gridSet. rewrite Hget. rewrite bool_decide_eq_true_2 by lia.
  eexists. split; [reflexivity|]. split_and!.
  - by rewrite length_insert.
  - unfold cellAt. rewrite list_lookup_insert_eq by (by eapply lookup_lt_Some).
    by rewrite arraySet_lookup.
  - intros r k Hne. unfold cellAt.
    destruct (decide (r = Z.to_nat row)) as [->|Hr].
    + rewrite list_lookup_insert_eq by (by eapply lookup_lt_Some).
      rewrite Hcells. apply arraySet_lookup_ne. congruence.
    + by rewrite list_lookup_insert_ne.
Qed.

End Coordinates.

(* ------------------------------------------------------------------ *)
(** ** CPUPlayer: processing a result *)

Section ProcessResult.

(** The tracking board once [processGuessResult] has recorded [c] and
    marked its cell. *)
Lemma tracking_update (cpu : CPUPlayer) (c : string) (row col : Z) (v : Cell) :
  isValidCoordinate (opponentBoard (base cpu)) (Num row) (Num col) = true →
  length (grid (opponentBoard (base cpu))) = size (opponentBoard (base cpu)) →
  ∃ g' : Grid,
    gridSet (Num row) (Num col) v (grid (opponentBoard (base cpu))) = Normal g' ∧
    length g' = size (opponentBoard (base cpu)) ∧
    cellAt g' (Z.to_nat row) (Z.to_nat col) = Some v.
Proof.
  intros Hvalid Hrows. apply isValidCoordinate_spec in Hvalid as [Hr Hc].
  destruct (gridSet_row (grid (opponentBoard (base cpu))) row col v) as (g' & H1 & H2 & H3 & _).
  - lia.
  - lia.
  - exists g'. split_and!; [done|congruence|done].
Qed.

(** C5.  Whatever the mode, the target queue and the last hit are, after
    [processGuessResult(c, {hit: true, sunk: true})] for a coordinate [c]
    of the tracking board the mode is Hunt and the target queue is empty. *)
Theorem processGuessResult_sunk_resets (cpu : CPUPlayer) (c : string) (row col : Z)
    (result : GuessResult) :
  parseCoordinate c = Normal (Num row, Num col) →
  isValidCoordinate (opponentBoard (base cpu)) (Num row) (Num col) = true →
  length (grid (opponentBoard (base cpu))) = size (opponentBoard (base cpu)) →
  hitR result = true → sunk result = true →
  ∃ cpu' : CPUPlayer,
    processGuessResult c result cpu = (Normal tt, cpu') ∧
    mode cpu' = Hunt ∧ targetQueue cpu' = [].
Proof.
  intros Hparse Hvalid Hrows Hhit Hsunk.
  destruct (tracking_update cpu c row col HitMark Hvalid Hrows) as (g' & Hset & _).
  unfold processGuessResult. rewrite Hparse, Hhit. simpl. rewrite Hset, Hsunk.
  eexists. split; [reflexivity|]. done.
Qed.

Lemma processGuessResult_sunk_resets_witness :
  ∃ cpu' : CPUPlayer,
    processGuessResult "45" hitAndSunk
      (processGuessResult "44" hitNotSunk (newCPUPlayer "CPU")).2 = (Normal tt, cpu') ∧
    mode cpu' = Hunt ∧ targetQueue cpu' = [].
Proof.
  apply (processGuessResult_sunk_resets _ "45" 4 5); reflexivity.
Defined.

End ProcessResult.

Section AdjacentTargets.

(** A cell and its four neighbours print as five different strings. *)
Lemma neighbours_distinct (row col : Z) :
  (0 ≤ row ≤ 9)%Z → (0 ≤ col ≤ 9)%Z →
  NoDup (coordinateString row col
         :: ((fun cell : Z * Z => coordinateString cell.1 cell.2) <$> neighbours row col)).
Proof.
  intros Hr Hc. apply digit_cases in Hr, Hc.
  repeat (apply elem_of_cons in Hr as [->|Hr]; [|]);
    try (by apply elem_of_nil in Hr);
    repeat (apply elem_of_cons in Hc as [->|Hc]; [|]);
    try (by apply elem_of_nil in Hc); compute_done.
Qed.

Lemma adjacentCells_neighbours (row col : Z) :
  adjacentCells (Num row) (Num col)
  = (fun cell : Z * Z => (Num cell.1, Num cell.2)) <$> neighbours row col.
Proof. reflexivity. Qed.

(** The [forEach] of [addAdjacentTargets], run on a board [ob'] that
    differs from [ob] by the guess [c]: it appends the cells that are in
    bounds, unguessed and not queued before. *)
Lemma foldl_addTarget (ob ob' : Board) (c : string) (cells : list (Z * Z))
    (q acc : list string) :
  size ob' = size ob →
  guesses ob' = {[c]} ∪ guesses ob →
  NoDup ((fun cell : Z * Z => coordinateString cell.1 cell.2) <$> cells) →
  (∀ cell : Z * Z, cell ∈ cells →
     coordinateString cell.1 cell.2 ≠ c ∧ coordinateString cell.1 cell.2 ∉ acc) →
  foldl (addTarget ob') (q ++ acc) ((fun cell : Z * Z => (Num cell.1, Num cell.2)) <$> cells)
  = q ++ acc
      ++ filter (fun adj : string => adj ∉ q)
           (filter (fun adj : string => adj ∉ guesses ob)
              ((fun cell : Z * Z => coordinateString cell.1 cell.2)
                 <$> filter (fun cell : Z * Z =>
                               (0 ≤ cell.1 < Z.of_nat (size ob))%Z
                               ∧ (0 ≤ cell.2 < Z.of_nat (size ob))%Z) cells)).
Proof.
  intros Hsize Hguess. revert acc.
  induction cells as [|[r k] cells IH]; intros acc Hnd Hfresh.
  - simpl. by rewrite app_nil_r.
  - rewrite fmap_cons in Hnd. apply NoDup_cons in Hnd as [Hhead Hnd].
    destruct (Hfresh (r, k)) as [Hc Hacc]; [left|]. simpl in Hhead, Hc, Hacc.
    assert (addTarget ob' (q ++ acc) (Num r, Num k)
            = if isValidCoordinate ob' (Num r) (Num k)
              then if negb (hasBeenGuessed ob' (coordinateString r k))
                      && negb (includes (coordinateString r k) (q ++ acc))
                   then (q ++ acc) ++ [coordinateString r k]
                   else q ++ acc
              else q ++ acc) as Hstep by reflexivity.
    rewrite fmap_cons.
    change (foldl (addTarget ob') (addTarget ob' (q ++ acc) (Num r, Num k))
              ((fun cell : Z * Z => (Num cell.1, Num cell.2)) <$> cells) = 
            q ++ acc
              ++ filter (fun adj : string => adj ∉ q)
                   (filter (fun adj : string => adj ∉ guesses ob)
                      ((fun cell : Z * Z => coordinateString cell.1 cell.2)
                         <$> filter (fun cell : Z * Z =>
                                       (0 ≤ cell.1 < Z.of_nat (size ob))%Z
                                       ∧ (0 ≤ cell.2 < Z.of_nat (size ob))%Z)
                                    ((r, k) :: cells)))).
    rewrite Hstep. clear Hstep.
    destruct (isValidCoordinate ob' (Num r) (Num k)) eqn:Hvalid.
    + apply isValidCoordinate_spec in Hvalid. rewrite Hsize in Hvalid.
      rewrite filter_cons_True by done. rewrite fmap_cons. simpl.
      unfold hasBeenGuessed, includes. rewrite Hguess.
      destruct (decide (coordinateString r k ∈ guesses ob)) as [Hg|Hg].
      * rewrite bool_decide_eq_true_2 by set_solver. simpl.
        rewrite filter_cons_False by (intros H; by apply H).
        apply IH; [done|]. intros cell Hcell. apply Hfresh. by right.
      * rewrite bool_decide_eq_false_2 by set_solver. simpl.
        rewrite (filter_cons_True (fun adj : string => adj ∉ guesses ob)) by done.
        destruct (decide (coordinateString r k ∈ q)) as [Hq|Hq].
        -- rewrite bool_decide_eq_true_2 by (apply elem_of_app; by left). simpl.
           rewrite filter_cons_False by (intros H; by apply H).
           apply IH; [done|]. intros cell Hcell. apply Hfresh. by right.
        -- rewrite bool_decide_eq_false_2
             by (rewrite elem_of_app; intros [?|?]; done). simpl.
           rewrite filter_cons_True by done.
           rewrite <- (app_assoc q acc). rewrite (IH (acc ++ [coordinateString r k])).
           ++ rewrite <- (app_assoc acc). done.
           ++ done.
           ++ intros cell Hcell. destruct (Hfresh cell) as [H1 H2]; [by right|].
              split; [done|]. rewrite elem_of_app, list_elem_of_singleton.
              intros [?|Heq]; [done|]. apply Hhead. rewrite <- Heq.
              apply (list_elem_of_fmap_2 (fun cell : Z * Z => coordinateString cell.1 cell.2)).
              done.
    + assert (¬ ((0 ≤ r < Z.of_nat (size ob))%Z ∧ (0 ≤ k < Z.of_nat (size ob))%Z)) as Hout.
      { rewrite <- Hsize. intros H. apply isValidCoordinate_spec in H. congruence. }
      rewrite filter_cons_False by done.
      apply IH; [done|]. intros cell Hcell. apply Hfresh. by right.
Qed.

End AdjacentTargets.

Section HitNotSunk.

Lemma filter_all {A : Type} (P : A → Prop) `{!∀ x, Decision (P x)} (l : list A) :
  (∀ x, x ∈ l → P x) → filter P l = l.
Proof.
  induction l as [|x l IH]; intros Hall; [done|].
  rewrite filter_cons_True by (apply Hall; left). f_equal. apply IH.
  intros y Hy. apply Hall. by right.
Qed.

Lemma inBoundsNeighbours_interior (row col : Z) :
  (1 ≤ row ≤ 8)%Z → (1 ≤ col ≤ 8)%Z → length (inBoundsNeighbours 10 row col) = 4.
Proof.
  intros Hr Hc. unfold inBoundsNeighbours, neighbours. rewrite length_fmap.
  rewrite !filter_cons_True by (simpl; lia). done.
Qed.

Lemma inBoundsNeighbours_corner (row col : Z) :
  (row = 0 ∨ row = 9)%Z → (col = 0 ∨ col = 9)%Z → length (inBoundsNeighbours 10 row col) = 2.
Proof.
  intros [-> | ->] [-> | ->]; reflexivity.
Qed.

(** The queue [addAdjacentTargets] leaves, on the board that already holds
    the guess [c] at [(row, col)]. *)
Lemma addAdjacentTargets_queue (ob ob' : Board) (row col : Z) (q : list string) :
  (0 ≤ row ≤ 9)%Z → (0 ≤ col ≤ 9)%Z →
  size ob' = size ob →
  guesses ob' = {[coordinateString row col]} ∪ guesses ob →
  foldl (addTarget ob') q (adjacentCells (Num row) (Num col))
  = q ++ filter (fun adj : string => adj ∉ q) (openNeighbours ob row col).
Proof.
  intros Hr Hc Hsize Hguess.
  pose proof (neighbours_distinct row col Hr Hc) as Hnd.
  apply NoDup_cons in Hnd as [Hc' Hnd].
  rewrite adjacentCells_neighbours.
  pose proof (foldl_addTarget ob ob' (coordinateString row col) (neighbours row col) q []
                Hsize Hguess Hnd) as H.
  rewrite app_nil_r in H. rewrite H; [done|].
  intros cell Hcell. split; [|apply not_elem_of_nil].
  intros Heq. apply Hc'. rewrite <- Heq.
  by apply (list_elem_of_fmap_2 (fun cell : Z * Z => coordinateString cell.1 cell.2)).
Qed.

(** After [processGuessResult(c, {hit: true, sunk: false})] for an
    in-bounds coordinate [c], from any mode and any queue, the mode is
    Target and the target queue is what it was before, followed by the
    in-bounds orthogonal neighbours of [c] that are neither in the
    guessed-set nor queued already, in the order up, down, left, right.
    From an empty queue this is exactly the in-bounds unguessed
    neighbours: four of them for an interior cell of a 10x10 board and two
    for a corner, when none of them was guessed. *)
Lemma processGuessResult_hit_appends (cpu : CPUPlayer) (c : string) (row col : Z)
    (result : GuessResult) :
  parseCoordinate c = Normal (Num row, Num col) →
  isValidCoordinate (opponentBoard (base cpu)) (Num row) (Num col) = true →
  length (grid (opponentBoard (base cpu))) = size (opponentBoard (base cpu)) →
  hitR result = true → sunk result = false →
  ∃ cpu' : CPUPlayer,
    processGuessResult c result cpu = (Normal tt, cpu') ∧
    mode cpu' = Target ∧
    targetQueue cpu'
    = targetQueue cpu
        ++ filter (fun adj : string => adj ∉ targetQueue cpu)
             (openNeighbours (opponentBoard (base cpu)) row col) ∧
    (targetQueue cpu = [] →
     targetQueue cpu' = openNeighbours (opponentBoard (base cpu)) row col) ∧
    (targetQueue cpu = [] → size (opponentBoard (base cpu)) = 10 →
     (∀ adj : string, adj ∈ inBoundsNeighbours 10 row col →
                      adj ∉ guesses (opponentBoard (base cpu))) →
     ((1 ≤ row ≤ 8)%Z → (1 ≤ col ≤ 8)%Z → length (targetQueue cpu') = 4) ∧
     ((row = 0 ∨ row = 9)%Z → (col = 0 ∨ col = 9)%Z → length (targetQueue cpu') = 2)).
Proof.
  intros Hparse Hvalid Hrows Hhit Hsunk.
  destruct (tracking_update cpu c row col HitMark Hvalid Hrows) as (g' & Hset & _).
  destruct (parseCoordinate_inv c row col Hparse) as (Hr & Hc & Hstr).
  unfold processGuessResult. rewrite Hparse, Hhit. simpl. rewrite Hset, Hsunk.
  unfold addAdjacentTargets. rewrite Hparse.
  eexists. split; [reflexivity|].
  cbn [mode targetQueue base opponentBoard withTargetQueue withMode withLastHit withTracking
       withBase withOpponentBoard].
  assert (Hqueue :
    foldl (addTarget (withGrid g' (withGuesses ({[c]} ∪ guesses (opponentBoard (base cpu)))
                                     (opponentBoard (base cpu)))))
          (targetQueue cpu) (adjacentCells (Num row) (Num col))
    = targetQueue cpu
        ++ filter (fun adj : string => adj ∉ targetQueue cpu)
             (openNeighbours (opponentBoard (base cpu)) row col)).
  { apply addAdjacentTargets_queue; [done..|]. simpl. by rewrite Hstr. }
  split; [done|]. split; [exact Hqueue|].
  assert (Hempty : targetQueue cpu = [] →
    foldl (addTarget (withGrid g' (withGuesses ({[c]} ∪ guesses (opponentBoard (base cpu)))
                                     (opponentBoard (base cpu)))))
          (targetQueue cpu) (adjacentCells (Num row) (Num col))
    = openNeighbours (opponentBoard (base cpu)) row col).
  { intros Hq. rewrite Hqueue, Hq. simpl. apply filter_all. intros ? _. apply not_elem_of_nil. }
  split; [exact Hempty|].
  intros Hq Hsize Hopen. rewrite (Hempty Hq). unfold openNeighbours. rewrite Hsize.
  rewrite (filter_all _ _ Hopen).
  split; [apply inBoundsNeighbours_interior | apply inBoundsNeighbours_corner].
Qed.

(** The queue is appended to, never cleared, on a hit that does not sink.
    A direct call of [addAdjacentTargets("00")] on a new CPU player (the
    game calls it from [processGuessResult] only) leaves a Hunt state with
    ["10"] and ["01"] queued; after a hit on ["44"] the queue still starts
    with the two. *)
Lemma processGuessResult_keeps_queued_targets :
  ∃ cpu cpu' : CPUPlayer,
    addAdjacentTargets "00" (newCPUPlayer "CPU") = (Normal tt, cpu) ∧
    mode cpu = Hunt ∧
    processGuessResult "44" hitNotSunk cpu = (Normal tt, cpu') ∧
    targetQueue cpu' = ["10"; "01"; "34"; "54"; "43"; "45"] ∧
    openNeighbours (opponentBoard (base cpu)) 4 4 = ["34"; "54"; "43"; "45"] ∧
    targetQueue cpu' ≠ openNeighbours (opponentBoard (base cpu)) 4 4.
Proof.
  eexists _, _. split; [reflexivity|]. split; [reflexivity|].
  split; [vm_compute; reflexivity|].
  split; [reflexivity|]. split; [reflexivity|]. discriminate.
Qed.

End HitNotSunk.

(* ------------------------------------------------------------------ *)
(** ** CPUPlayer: generating a guess *)

Section HuntGuess.

Lemma floorTimes_range (r : Unit01) (n : Z) :
  (0 < n)%Z → (0 ≤ floorTimes r n < n)%Z.
Proof.
  intros Hn. unfold floorTimes. split.
  - apply Z.div_pos; lia.
  - apply Z.div_lt_upper_bound; nia.
Qed.

Lemma scanOrder_elem (coord : string) :
  coord ∈ scanOrder
  ↔ ∃ row col : Z, (0 ≤ row ≤ 9)%Z ∧ (0 ≤ col ≤ 9)%Z ∧ coord = coordinateString row col.
Proof.
  unfold scanOrder. rewrite list_elem_of_bind. split.
  - intros (row & Hcol & Hrow). apply list_elem_of_bind in Hcol as (col & Hcoord & Hcol).
    apply list_elem_of_singleton in Hcoord. apply elem_of_seq in Hrow, Hcol.
    exists (Z.of_nat row), (Z.of_nat col). split_and!; [lia..|done].
  - intros (row & col & Hr & Hc & ->). exists (Z.to_nat row). split.
    + apply list_elem_of_bind. exists (Z.to_nat col). split.
      * rewrite !Z2Nat.id by lia. by apply list_elem_of_singleton.
      * apply elem_of_seq. lia.
    + apply elem_of_seq. lia.
Qed.

Lemma drawCoordinate_spec (g g' : Random) (coordinate : string) :
  drawCoordinate g = (coordinate, g') →
  coordinate ∈ scanOrder ∧ draws g' = draws g ∧ cursor g' = cursor g + 2.
Proof.
  unfold drawCoordinate, randomFloor, Math_random. simpl. intros [= <- <-].
  split; [|split; [done|simpl; lia]].
  apply scanOrder_elem. eexists _, _. split_and!; [..|reflexivity].
  all: pose proof (floorTimes_range (draws g (cursor g)) 10);
       pose proof (floorTimes_range (draws g (S (cursor g))) 10); lia.
Qed.

(** The retry loop of [generateHuntGuess] stops after at most
    [maxAttempts] rounds in all, and when it stops earlier, the coordinate
    it holds is unguessed. *)
Lemma huntLoop_spec (ob : Board) (attempts : nat) (g : Random) :
  ∃ (coordinate : string) (attempts' : nat) (g' : Random),
    huntLoop ob attempts g = (coordinate, attempts', g') ∧
    coordinate ∈ scanOrder ∧
    S attempts ≤ attempts' ∧
    (attempts' ≤ huntMaxAttempts ∨ attempts' = S attempts) ∧
    (attempts' < huntMaxAttempts → hasBeenGuessed ob coordinate = false) ∧
    draws g' = draws g ∧
    cursor g' = cursor g + 2 * (attempts' - attempts).
Proof.
  funelim (huntLoop ob attempts g);
    pose proof (drawCoordinate_spec g _ _ eq_refl) as (Hin & Hd0 & Hc0);
    cbn [draws cursor] in *.
  - destruct H as (c' & a' & g'' & Hrun & Hin' & Hle & Hmax & Hun & Hd & Hcur).
    exists c', a', g''. rewrite Hrun. split_and!; try done.
    + lia.
    + destruct Hmax as [Hm | ->]; [by left|]. left. lia.
    + lia.
  - eexists _, (S attempts), _. split; [reflexivity|]. split_and!; try done.
    + by right.
    + intros Hlt. apply not_true_is_false. intros E. apply n. split; [done|lia].
    + cbn [cursor]. lia.
Qed.

Lemma fallbackScan_spec (ob : Board) (coord : string) :
  coord ∈ scanOrder → hasBeenGuessed ob coord = false →
  ∃ found : string,
    fallbackScan ob = Some found ∧ found ∈ scanOrder ∧ hasBeenGuessed ob found = false.
Proof.
  intros Hin Hun. unfold fallbackScan.
  destruct (find _ scanOrder) as [found|] eqn:E.
  - apply find_some in E as [Hf Hg]. exists found. split_and!; [done|by apply list_elem_of_In|].
    by apply negb_true_iff in Hg.
  - assert (negb (hasBeenGuessed ob coord) = false) as Hnone.
    { apply (find_none _ _ E coord). by apply list_elem_of_In. }
    rewrite Hun in Hnone. discriminate Hnone.
Qed.

(** What [generateHuntGuess] returns when some coordinate of the 10x10
    board is unguessed. *)
Lemma generateHuntGuess_spec (cpu : CPUPlayer) (g : Random) (coord : string) :
  coord ∈ scanOrder →
  hasBeenGuessed (opponentBoard (base cpu)) coord = false →
  ∃ (guess : string) (g' : Random),
    generateHuntGuess cpu g = (guess, g') ∧
    guess ∈ scanOrder ∧
    hasBeenGuessed (opponentBoard (base cpu)) guess = false ∧
    draws g' = draws g ∧
    cursor g < cursor g' ∧ cursor g' ≤ cursor g + 2 * huntMaxAttempts.
Proof.
  intros Hin Hun. unfold generateHuntGuess.
  destruct (huntLoop_spec (opponentBoard (base cpu)) 0 g)
    as (c' & a' & g' & Hrun & Hin' & Hle & Hmax & Hfree & Hd & Hcur).
  rewrite Hrun.
  assert (a' ≤ huntMaxAttempts) as Hbound.
  { destruct Hmax as [Hm | ->]; [done|]. unfold huntMaxAttempts. lia. }
  case_bool_decide as Hdone.
  - destruct (fallbackScan_spec _ _ Hin Hun) as (found & -> & Hf & Hg).
    exists found, g'. split_and!; [done..| lia | lia].
  - exists c', g'. split_and!; [done | done | apply Hfree; lia | done | lia | lia].
Qed.

End HuntGuess.

Section GenerateGuess.

Lemma allGuessedBut09_guessed (c : string) :
  hasBeenGuessed (opponentBoard (base cpuAllGuessedBut09)) c
  = bool_decide (c ∈ scanOrder ∧ c ≠ "09").
Proof.
  unfold hasBeenGuessed, cpuAllGuessedBut09.
  cbn [opponentBoard base withTracking withBase withOpponentBoard withGuesses guesses].
  apply bool_decide_ext. rewrite elem_of_list_to_set, list_elem_of_filter. tauto.
Qed.

(** C6.  When some coordinate of the 10x10 board is not in the tracking
    board's guessed-set, [generateHuntGuess] returns, whatever the random
    draws are and after at most [maxAttempts] rounds of two draws each, a
    coordinate of the board that is not in the guessed-set.  When one
    coordinate alone is unguessed (["09"], say) it returns that one. *)
Theorem generateHuntGuess_unguessed (cpu : CPUPlayer) (g : Random) (row col : Z) :
  (0 ≤ row < 10)%Z → (0 ≤ col < 10)%Z →
  hasBeenGuessed (opponentBoard (base cpu)) (coordinateString row col) = false →
  ∃ (guess : string) (g' : Random),
    generateHuntGuess cpu g = (guess, g') ∧
    hasBeenGuessed (opponentBoard (base cpu)) guess = false ∧
    (∃ r k : Z, (0 ≤ r < 10)%Z ∧ (0 ≤ k < 10)%Z ∧ guess = coordinateString r k) ∧
    draws g' = draws g ∧
    cursor g < cursor g' ∧ cursor g' ≤ cursor g + 2 * huntMaxAttempts ∧
    ((∀ r k : Z, (0 ≤ r < 10)%Z → (0 ≤ k < 10)%Z → (r, k) ≠ (row, col) →
        hasBeenGuessed (opponentBoard (base cpu)) (coordinateString r k) = true) →
     guess = coordinateString row col).
Proof.
  intros Hr Hc Hun.
  destruct (generateHuntGuess_spec cpu g (coordinateString row col))
    as (guess & g' & Hrun & Hin & Hfree & Hd & Hlo & Hhi); [|done|].
  { apply scanOrder_elem. exists row, col. split_and!; [lia..|done]. }
  apply scanOrder_elem in Hin as (r & k & Hr' & Hk' & Hguess).
  exists guess, g'. split_and!; try done.
  - exists r, k. split_and!; [lia..|done].
  - intros Hothers. destruct (decide ((r, k) = (row, col))) as [[= -> ->]|Hne]; [done|].
    rewrite Hguess, (Hothers r k) in Hfree; [done|lia|lia|done].
Qed.

Lemma generateHuntGuess_unguessed_witness :
  ∃ g' : Random, generateHuntGuess cpuAllGuessedBut09 zeroSource = ("09", g').
Proof.
  destruct (generateHuntGuess_unguessed cpuAllGuessedBut09 zeroSource 0 9)
    as (guess & g' & Hrun & _ & _ & _ & _ & _ & Honly); [lia | lia | |].
  - rewrite allGuessedBut09_guessed. apply bool_decide_eq_false_2. by intros [_ H].
  - exists g'. rewrite Hrun. f_equal. apply Honly.
    intros r k Hr Hk Hne. rewrite allGuessedBut09_guessed. apply bool_decide_eq_true_2.
    split.
    + apply scanOrder_elem. exists r, k. split_and!; [lia..|done].
    + intros Heq. apply Hne.
      pose proof (parse_coordinateString r k) as Hparse. rewrite Heq in Hparse.
      assert (Normal (Num 0, Num 9) = Normal (Num r, Num k)) as [= <- <-]; [|done].
      apply Hparse; lia.
Defined.

Lemma shiftWhileGuessed_spec (ob : Board) (coordinate : string) (queue : list string) :
  ∃ (c' : string) (queue' : list string),
    shiftWhileGuessed ob coordinate queue = (c', queue') ∧
    (hasBeenGuessed ob c' = true → queue' = []).
Proof.
  revert coordinate. induction queue as [|next rest IH]; intros coordinate; simpl.
  - by eexists _, _.
  - destruct (hasBeenGuessed ob coordinate) eqn:E.
    + apply IH.
    + eexists _, _. split; [done|]. congruence.
Qed.

(** C10.  In either mode and with any target queue, when some coordinate
    of the 10x10 board is not in the tracking board's guessed-set,
    [generateGuess] returns, whatever the random draws are, a coordinate
    that is not in that guessed-set; the tracking board itself is not
    touched. *)
Theorem generateGuess_unguessed (cpu : CPUPlayer) (g : Random) (row col : Z) :
  (0 ≤ row < 10)%Z → (0 ≤ col < 10)%Z →
  hasBeenGuessed (opponentBoard (base cpu)) (coordinateString row col) = false →
  ∃ (guess : string) (cpu' : CPUPlayer) (g' : Random),
    generateGuess cpu g = (guess, cpu', g') ∧
    opponentBoard (base cpu') = opponentBoard (base cpu) ∧
    hasBeenGuessed (opponentBoard (base cpu)) guess = false.
Proof.
  intros Hr Hc Hun.
  assert (coordinateString row col ∈ scanOrder) as Hin.
  { apply scanOrder_elem. exists row, col. split_and!; [lia..|done]. }
  assert (Hhunt : ∀ cpu0 : CPUPlayer,
            opponentBoard (base cpu0) = opponentBoard (base cpu) →
            ∃ (guess : string) (g' : Random),
              generateHuntGuess cpu0 g = (guess, g') ∧
              hasBeenGuessed (opponentBoard (base cpu)) guess = false).
  { intros cpu0 Hsame.
    destruct (generateHuntGuess_spec cpu0 g (coordinateString row col))
      as (guess & g' & Hrun & _ & Hfree & _); [done|by rewrite Hsame|].
    exists guess, g'. split; [done|]. by rewrite <- Hsame. }
  unfold generateGuess.
  destruct (mode cpu) eqn:Hmode.
  - destruct (Hhunt (withMode Hunt cpu) eq_refl) as (guess & g' & Hrun & Hfree).
    rewrite Hrun. destruct (targetQueue cpu); by eexists _, _, _.
  - destruct (targetQueue cpu) as [|first rest] eqn:Hqueue.
    + destruct (Hhunt (withMode Hunt cpu) eq_refl) as (guess & g' & Hrun & Hfree).
      rewrite Hrun. by eexists _, _, _.
    + destruct (shiftWhileGuessed_spec (opponentBoard (base cpu)) first rest)
        as (c' & queue' & Hshift & _).
      rewrite Hshift. cbn [base opponentBoard withTargetQueue].
      destruct (hasBeenGuessed (opponentBoard (base cpu)) c') eqn:Hc'.
      * destruct (Hhunt (withMode Hunt (withTargetQueue queue' cpu)) eq_refl)
          as (guess & g' & Hrun & Hfree).
        rewrite Hrun. by eexists _, _, _.
      * by eexists _, _, _.
Qed.

Lemma generateGuess_unguessed_witness :
  ∃ (guess : string) (cpu' : CPUPlayer) (g' : Random),
    generateGuess (processGuessResult "44" hitNotSunk (newCPUPlayer "CPU")).2 zeroSource
    = (guess, cpu', g') ∧
    hasBeenGuessed
      (opponentBoard (base (processGuessResult "44" hitNotSunk (newCPUPlayer "CPU")).2))
      guess = false.
Proof.
  destruct (generateGuess_unguessed
              (processGuessResult "44" hitNotSunk (newCPUPlayer "CPU")).2 zeroSource 0 0)
    as (guess & cpu' & g' & Hrun & _ & Hfree); [lia | lia | by vm_compute |].
  by exists guess, cpu', g'.
Defined.

End GenerateGuess.

(* ------------------------------------------------------------------ *)
(** ** Board: placement *)

Section Placement.

(** [canPlaceShip] says yes only when every location is an in-bounds
    coordinate whose cell is water. *)
Lemma canPlaceShip_true (b : Board) (locs : list string) (c : string) :
  canPlaceShip b locs = Normal true → c ∈ locs →
  ∃ row col : Z,
    parseCoordinate c = Normal (Num row, Num col) ∧
    isValidCoordinate b (Num row) (Num col) = true ∧
    cellAt (grid b) (Z.to_nat row) (Z.to_nat col) = Some Water.
Proof.
  induction locs as [|location rest IH]; intros Hcan Hc; [by apply elem_of_nil in Hc|].
  simpl in Hcan.
  destruct (parseCoordinate location) as [[row col]|e] eqn:Hparse; [|done].
  destruct (isValidCoordinate b row col) eqn:Hvalid; [|done].
  destruct (gridIsWater (grid b) row col) as [[|]|e] eqn:Hwater; [|done..].
  apply elem_of_cons in Hc as [->|Hc]; [|by apply IH].
  destruct row as [r|]; [|done]. destruct col as [k|];
    [|by unfold isValidCoordinate in Hvalid; simpl in Hvalid; rewrite ?andb_false_r in Hvalid].
  exists r, k. split_and!; [done..|].
  apply isValidCoordinate_spec in Hvalid as [Hr Hk].
  unfold gridIsWater, gridRow in Hwater. unfold cellAt.
  rewrite bool_decide_eq_true_2 in Hwater by lia.
  destruct (grid b !! Z.to_nat r) as [cells|]; [|done].
  injection Hwater as Hwater. apply andb_true_iff in Hwater as [_ Hwater].
  apply bool_decide_eq_true in Hwater. by rewrite Hwater.
Qed.

(** Marking the cells of a ship that [canPlaceShip] accepted: it
    succeeds, every location ends with the ship symbol, and any other cell
    is as before. *)
Lemma markShip_spec (n : nat) (locs : list string) (g : Grid) :
  length g = n →
  (∀ c : string, c ∈ locs →
     ∃ row col : Z, parseCoordinate c = Normal (Num row, Num col) ∧
                    (0 ≤ row < Z.of_nat n)%Z ∧ (0 ≤ col)%Z) →
  ∃ g' : Grid,
    markShip locs g = (Normal tt, g') ∧
    length g' = n ∧
    (∀ r k : nat, cellAt g' r k = cellAt g r k ∨ cellAt g' r k = Some ShipMark) ∧
    (∀ (c : string) (row col : Z),
       c ∈ locs → parseCoordinate c = Normal (Num row, Num col) →
       cellAt g' (Z.to_nat row) (Z.to_nat col) = Some ShipMark).
Proof.
  revert g. induction locs as [|location rest IH]; intros g Hlen Hlocs.
  - exists g. split_and!; [done..| by left |].
    intros c row col Hc. by apply elem_of_nil in Hc.
  - destruct (Hlocs location) as (row & col & Hparse & Hrow & Hcol); [left|].
    destruct (gridSet_row g row col ShipMark) as (g1 & Hset & Hlen1 & Hcell & Hrest);
      [lia | lia |].
    destruct (IH g1) as (g' & Hrun & Hlen' & Hmono & Hmarks).
    { congruence. }
    { intros c Hc. apply Hlocs. by right. }
    exists g'. simpl. rewrite Hparse, Hset, Hrun. split_and!; [done..| |].
    + intros r k. destruct (Hmono r k) as [Hsame|Hmark]; [|by right].
      destruct (decide ((r, k) = (Z.to_nat row, Z.to_nat col))) as [[= -> ->]|Hne].
      * right. by rewrite Hsame.
      * left. by rewrite Hsame, Hrest.
    + intros c row' col' Hc Hparse'. apply elem_of_cons in Hc as [->|Hc].
      * assert (row' = row ∧ col' = col) as [-> ->] by (split; congruence).
        destruct (Hmono (Z.to_nat row) (Z.to_nat col)) as [Hsame|Hmark]; [|done].
        by rewrite Hsame.
      * by eapply Hmarks.
Qed.

(** [placeShip] after a positive [canPlaceShip]: the ship is appended and
    its cells, all water before, carry the ship symbol. *)
Lemma placeShip_spec (b : Board) (locs : list string) :
  canPlaceShip b locs = Normal true →
  ∃ b' : Board,
    placeShip locs b = (Normal tt, b') ∧
    size b' = size b ∧ guesses b' = guesses b ∧
    ships b' = ships b ++ [{| locations := locs; hits := replicate (length locs) false |}] ∧
    length (grid b') = length (grid b) ∧
    (∀ r k : nat, cellAt (grid b') r k = cellAt (grid b) r k
                  ∨ cellAt (grid b') r k = Some ShipMark) ∧
    (∀ (c : string) (row col : Z),
       c ∈ locs → parseCoordinate c = Normal (Num row, Num col) →
       cellAt (grid b') (Z.to_nat row) (Z.to_nat col) = Some ShipMark).
Proof.
  intros Hcan.
  destruct (markShip_spec (length (grid b)) locs (grid b)) as (g' & Hrun & Hlen & Hmono & Hmarks).
  { done. }
  { intros c Hc. destruct (canPlaceShip_true b locs c Hcan Hc) as (row & col & Hp & Hv & Hw).
    exists row, col. split; [done|]. apply isValidCoordinate_spec in Hv as [Hr Hk].
    split; [|lia]. split; [lia|].
    unfold cellAt in Hw. destruct (grid b !! Z.to_nat row) eqn:E; [|done].
    apply lookup_lt_Some in E. lia. }
  unfold placeShip. simpl. rewrite Hrun.
  eexists. split; [reflexivity|]. simpl. split_and!; done.
Qed.

Lemma placementAttempt_unfold (shipLength : nat) (b : Board) (g : Random) :
  placementAttempt shipLength b g
  = match canPlaceShip b (drawnLocations shipLength b g).1 with
    | Throw e => (Throw e, b, (drawnLocations shipLength b g).2)
    | Normal true =>
        match placeShip (drawnLocations shipLength b g).1 b with
        | (Throw e, b') => (Throw e, b', (drawnLocations shipLength b g).2)
        | (Normal _, b') => (Normal true, b', (drawnLocations shipLength b g).2)
        end
    | Normal false => (Normal false, b, (drawnLocations shipLength b g).2)
    end.
Proof.
  unfold placementAttempt, drawnLocations, Math_random, getRandomStartPosition, randomFloor,
    Math_random.
  destruct (belowHalf (draws g (cursor g))); reflexivity.
Qed.


Lemma placementLoop_step (numShips shipLength placedShips attempts : nat)
    (b : Board) (g : Random) :
  placementLoop numShips shipLength placedShips attempts b g
  = if decide (placedShips < numShips ∧ attempts < placementMaxAttempts)
    then match placementAttempt shipLength b g with
         | (Normal true, b', g') =>
             placementLoop numShips shipLength (S placedShips) (S attempts) b' g'
         | (Normal false, b', g') =>
             placementLoop numShips shipLength placedShips (S attempts) b' g'
         | (Throw e, b', g') => (Throw e, b', g')
         end
    else (Normal (placedShips, attempts), b, g).
Proof.
  simp placementLoop.
  destruct (decide (placedShips < numShips ∧ attempts < placementMaxAttempts)); simpl;
    [|reflexivity].
  destruct (placementAttempt shipLength b g) as [[[[|]|e] b'] g']; reflexivity.
Qed.

(** The rule of the placement loop: a property [Inv] of the counters, the
    board and the random source that every round keeps holds when the loop
    ends, and the loop ends with all ships placed or the budget used up.
    [Q] is what is known when a round throws. *)
Lemma placementLoop_rule (Inv : nat → nat → Board → Random → Prop) (Q : Prop)
    (numShips shipLength : nat) :
  (∀ (placedShips attempts : nat) (b : Board) (g : Random),
     Inv placedShips attempts b g →
     placedShips < numShips → attempts < placementMaxAttempts →
     match placementAttempt shipLength b g with
     | (Normal true, b', g') => Inv (S placedShips) (S attempts) b' g'
     | (Normal false, b', g') => Inv placedShips (S attempts) b' g'
     | (Throw e, _, _) => Q
     end) →
  ∀ (placedShips attempts : nat) (b : Board) (g : Random),
    Inv placedShips attempts b g →
    match placementLoop numShips shipLength placedShips attempts b g with
    | (Normal (placed', attempts'), b', g') =>
        Inv placed' attempts' b' g' ∧
        ¬ (placed' < numShips ∧ attempts' < placementMaxAttempts)
    | (Throw e, _, _) => Q
    end.
Proof.
  intros Hstep placedShips attempts.
  remember (placementMaxAttempts - attempts) as budget eqn:Hbudget.
  revert placedShips attempts Hbudget.
  induction budget as [|budget IH]; intros placedShips attempts Hbudget b g Hinv;
    rewrite placementLoop_step;
    destruct (decide (placedShips < numShips ∧ attempts < placementMaxAttempts))
      as [[Hp Ha]|Hstop]; try done; try lia.
  specialize (Hstep placedShips attempts b g Hinv Hp Ha).
  destruct (placementAttempt shipLength b g) as [[[[|]|e] b'] g']; [| |done].
  - apply IH; [lia|done].
  - apply IH; [lia|done].
Qed.

Lemma occupied_inBounds (b : Board) (c : string) : occupied b c → inBounds b c.
Proof. intros (row & col & Hp & Hv & _). by exists row, col. Qed.

(** A new board has no ship, so its ships are consistent. *)
Lemma newBoard_consistent (n : nat) : shipsConsistent (newBoard n).
Proof.
  split.
  - intros s c Hs. simpl in Hs. by apply elem_of_nil in Hs.
  - intros i j s t c _ Hs. simpl in Hs. by rewrite lookup_nil in Hs.
Qed.

(** Placing a ship that [canPlaceShip] accepted keeps any list of marked,
    pairwise disjoint ships of the board marked and disjoint, the new
    ship included. *)
Lemma placeShip_keeps (tracked : list Ship) (b b' : Board) (locs : list string) :
  canPlaceShip b locs = Normal true →
  placeShip locs b = (Normal tt, b') →
  marked tracked b → disjointShips tracked →
  marked (tracked ++ [{| locations := locs; hits := replicate (length locs) false |}]) b' ∧
  disjointShips (tracked ++ [{| locations := locs; hits := replicate (length locs) false |}]).
Proof.
  intros Hcan Hplace Hmarked Hdisj.
  destruct (placeShip_spec b locs Hcan) as (b1 & Hplace1 & Hsize & _ & _ & _ & Hmono & Hmarks).
  assert (b1 = b') as -> by congruence.
  assert (Hold : ∀ c : string, occupied b c → occupied b' c).
  { intros c (row & col & Hp & Hv & Hw). exists row, col. split_and!; [done| |].
    - unfold isValidCoordinate in *. by rewrite Hsize.
    - destruct (Hmono (Z.to_nat row) (Z.to_nat col)) as [Hsame|Hmark]; congruence. }
  assert (Hclash : ∀ (s : Ship) (c : string), s ∈ tracked → c ∈ locations s → c ∉ locs).
  { intros s c Hs Hc Hin. destruct (Hmarked s c Hs Hc) as (row & col & Hp & _ & Hw).
    destruct (canPlaceShip_true b locs c Hcan Hin) as (row' & col' & Hp' & _ & Hw').
    assert (row' = row ∧ col' = col) as [-> ->] by (split; congruence). done. }
  split.
  - intros s c Hs Hc. apply elem_of_app in Hs as [Hs|Hs].
    + apply Hold. by eapply Hmarked.
    + apply list_elem_of_singleton in Hs as ->. simpl in Hc.
      destruct (canPlaceShip_true b locs c Hcan Hc) as (row & col & Hp & Hv & _).
      exists row, col. split_and!; [done| |].
      * unfold isValidCoordinate in *. by rewrite Hsize.
      * by rewrite (Hmarks c row col Hc Hp).
  - intros i j s t c Hij Hs Ht Hc.
    apply lookup_app_Some in Hs as [Hs|[Hi Hs]]; apply lookup_app_Some in Ht as [Ht|[Hj Ht]].
    + by eapply Hdisj.
    + apply list_lookup_singleton_Some in Ht as [_ <-]. simpl.
      eapply Hclash; [|done]. by eapply list_elem_of_lookup_2.
    + apply list_lookup_singleton_Some in Hs as [_ <-]. simpl in Hc.
      intros Hc'. eapply Hclash; [|exact Hc'|done]. by eapply list_elem_of_lookup_2.
    + apply list_lookup_singleton_Some in Hs as [Hi' _].
      apply list_lookup_singleton_Some in Ht as [Hj' _]. lia.
Qed.

End Placement.

Section RandomPlacement.

(** What one round of the loop does to a board, said with [canPlaceShip]. *)
Lemma placementAttempt_cases (shipLength : nat) (b : Board) (g : Random) :
  let locs := (drawnLocations shipLength b g).1 in
  let g' := (drawnLocations shipLength b g).2 in
  match canPlaceShip b locs with
  | Normal true =>
      ∃ b' : Board, placeShip locs b = (Normal tt, b') ∧
                    placementAttempt shipLength b g = (Normal true, b', g')
  | Normal false => placementAttempt shipLength b g = (Normal false, b, g')
  | Throw e => placementAttempt shipLength b g = (Throw e, b, g')
  end.
Proof.
  intros locs g'. rewrite placementAttempt_unfold. fold locs g'.
  destruct (canPlaceShip b locs) as [[|]|e] eqn:Hcan; [|done..].
  destruct (placeShip_spec b locs Hcan) as (b' & Hplace & _).
  exists b'. by rewrite Hplace.
Qed.

(** C2.  After a successful [placeShipsRandomly(numShips, shipLength)] on
    any board, the call has appended [numShips] ships; every cell of every
    ship it placed is in bounds, and no two of them share a coordinate.
    When the ships the board had before were marked on its grid and
    pairwise disjoint (as on a new board, and as this call leaves them),
    every cell of every ship of the board is in bounds and no two ships of
    the board share a coordinate. *)
Theorem placeShipsRandomly_no_overlap (numShips shipLength : nat) (b b' : Board)
    (g g' : Random) :
  placeShipsRandomly numShips shipLength b g = (Normal tt, b', g') →
  ∃ placed : list Ship,
    ships b' = ships b ++ placed ∧
    length placed = numShips ∧
    (∀ (s : Ship) (c : string), s ∈ placed → c ∈ locations s → inBounds b' c) ∧
    disjointShips placed ∧
    (shipsConsistent b →
     (∀ (s : Ship) (c : string), s ∈ ships b' → c ∈ locations s → inBounds b' c) ∧
     disjointShips (ships b') ∧
     shipsConsistent b').
Proof.
  intros Hrun. unfold placeShipsRandomly in Hrun.
  pose (Inv := fun (placedShips attempts : nat) (bk : Board) (gk : Random) =>
    placedShips ≤ numShips ∧
    ∃ placed : list Ship,
      ships bk = ships b ++ placed ∧ length placed = placedShips ∧
      marked placed bk ∧ disjointShips placed ∧
      (shipsConsistent b → marked (ships b ++ placed) bk ∧ disjointShips (ships b ++ placed))).
  assert (Hstart : Inv 0 0 b g).
  { split; [lia|]. exists []. rewrite app_nil_r. split_and!; try done.
    all: try (intros s c Hs; by apply elem_of_nil in Hs).
    all: try (intros i j s t c _ Hs; by rewrite lookup_nil in Hs). }
  assert (Hstep : ∀ (placedShips attempts : nat) (bk : Board) (gk : Random),
            Inv placedShips attempts bk gk →
            placedShips < numShips → attempts < placementMaxAttempts →
            match placementAttempt shipLength bk gk with
            | (Normal true, bk', gk') => Inv (S placedShips) (S attempts) bk' gk'
            | (Normal false, bk', gk') => Inv placedShips (S attempts) bk' gk'
            | (Throw e, _, _) => True
            end).
  { intros placedShips attempts bk gk (Hle & placed & Hships & Hlen & Hm & Hd & Hcons) Hp Ha.
    pose proof (placementAttempt_cases shipLength bk gk) as Hcases. simpl in Hcases.
    destruct (canPlaceShip bk (drawnLocations shipLength bk gk).1) as [[|]|e] eqn:Hcan.
    - destruct Hcases as (bk' & Hplace & ->).
      destruct (placeShip_spec bk _ Hcan) as (b2 & Hplace2 & _ & _ & Hships2 & _).
      assert (b2 = bk') as -> by congruence.
      split; [lia|].
      eexists (placed ++ [_]). split_and!.
      + rewrite Hships2, Hships. by rewrite app_assoc.
      + rewrite length_app. simpl. lia.
      + by apply (placeShip_keeps placed bk bk' _ Hcan Hplace).
      + by apply (placeShip_keeps placed bk bk' _ Hcan Hplace).
      + intros Hb. destruct (Hcons Hb) as [Hm' Hd']. rewrite app_assoc.
        by apply (placeShip_keeps (ships b ++ placed) bk bk' _ Hcan Hplace).
    - rewrite Hcases. split; [lia|]. by exists placed.
    - by rewrite Hcases. }
  pose proof (placementLoop_rule Inv True numShips shipLength Hstep 0 0 b g Hstart) as Hrule.
  destruct (placementLoop numShips shipLength 0 0 b g) as [[[[placed' attempts']|e] b1] g1];
    [|done].
  case_bool_decide as Hall; [done|]. injection Hrun as <- <-.
  destruct Hrule as [(Hle & placed & Hships & Hlen & Hmarked & Hdisj & Hcons) _].
  exists placed. split; [done|]. split; [lia|]. split; [|split; [done|]].
  - intros s c Hs Hc. apply occupied_inBounds. by eapply Hmarked.
  - intros Hb. destruct (Hcons Hb) as [Hm' Hd']. rewrite Hships.
    split; [|split; [done|]].
    + intros s c Hs Hc. apply occupied_inBounds. by eapply Hm'.
    + split; by rewrite Hships.
Qed.

Lemma placeShipsRandomly_no_overlap_witness :
  ∃ (b' : Board) (g' : Random),
    placeShipsRandomly 3 3 (newBoard 10) tenthsSource = (Normal tt, b', g') ∧
    length (ships b') = 3 ∧ disjointShips (ships b').
Proof.
  set (run := placeShipsRandomly 3 3 (newBoard 10) tenthsSource).
  assert (Hrun : run = (Normal tt, run.1.2, run.2)) by (vm_compute; reflexivity).
  exists run.1.2, run.2. split; [exact Hrun|].
  destruct (placeShipsRandomly_no_overlap 3 3 (newBoard 10) run.1.2 tenthsSource run.2 Hrun)
    as (placed & Hships & Hlen & _ & _ & Hcons).
  destruct (Hcons (newBoard_consistent 10)) as (_ & Hdisj & _).
  split; [|exact Hdisj]. rewrite Hships. simpl. exact Hlen.
Defined.

End RandomPlacement.

Section PlacementBudget.





(** With the random source stuck at 0 every round draws the same three
    cells: one ship is placed, 999 rounds fail, and the call throws. *)
Example placeShipsRandomly_exhausted :
  (placeShipsRandomly 3 3 (newBoard 10) zeroSource).1.1
  = Throw (Error "Could only place 1 out of 3 ships after 1000 attempts").
Proof. vm_compute. reflexivity. Qed.


End PlacementBudget.

(* ------------------------------------------------------------------ *)
(** ** Further properties: coordinates and ships *)

Section MoreShip.

(** X1.  [parseCoordinate] and the template [`${row}${col}`] are inverse to
    each other on digits: a string parses to the numbers [row] and [col]
    iff both are digits and the string is their coordinate. *)
Theorem parseCoordinate_roundtrip (c : string) (row col : Z) :
  parseCoordinate c = Normal (Num row, Num col)
  ↔ (0 ≤ row ≤ 9)%Z ∧ (0 ≤ col ≤ 9)%Z ∧ c = coordinateString row col.
Proof.
  split.
  - apply parseCoordinate_inv.
  - intros (Hr & Hc & ->). by apply parse_coordinateString.
Qed.

Lemma occupies_indexOf (s : Ship) (x : string) :
  occupies s x = false ↔ indexOf x (locations s) = None.
Proof.
  unfold occupies, includes. rewrite bool_decide_eq_false. symmetry. apply indexOf_None.
Qed.

(** X2.  [hit] answers true exactly for a location of the ship whose flag is
    still down; an answer of false leaves the ship as it was; a location
    the ship does not occupy is never a hit; and a second [hit] on the same
    location is never a hit and changes nothing. *)
Theorem hit_twice (x : string) (s : Ship) :
  shipShape s →
  ((hit x s).1 = true
   ↔ ∃ i : nat, indexOf x (locations s) = Some i ∧ hits s !! i = Some false) ∧
  ((hit x s).1 = false → (hit x s).2 = s) ∧
  (occupies s x = false → (hit x s).1 = false) ∧
  hit x (hit x s).2 = (false, (hit x s).2).
Proof.
  intros Hshape. unfold shipShape in Hshape. split_and!.
  - unfold hit. destruct (indexOf x (locations s)) as [i|] eqn:E.
    + assert (i < length (hits s)) as Hi.
      { rewrite Hshape. eapply lookup_lt_Some. by apply indexOf_lookup. }
      destruct (lookup_lt_is_Some_2 _ _ Hi) as [flag Hflag]. rewrite Hflag. simpl.
      destruct flag; simpl; split; try done.
      * intros (j & [= <-] & Hj). congruence.
      * intros _. by exists i.
    + simpl. split; [done|]. by intros (i & ? & _).
  - apply hit_false_same.
  - intros Hocc. apply occupies_indexOf in Hocc. unfold hit. by rewrite Hocc.
  - unfold hit at 2 3. destruct (indexOf x (locations s)) as [i|] eqn:E.
    + assert (i < length (hits s)) as Hi.
      { rewrite Hshape. eapply lookup_lt_Some. by apply indexOf_lookup. }
      destruct (lookup_lt_is_Some_2 _ _ Hi) as [flag Hflag]. rewrite Hflag. simpl.
      destruct flag; simpl.
      * unfold hit. rewrite E, Hflag. done.
      * unfold hit. simpl. rewrite E. by rewrite list_lookup_insert_eq.
    + simpl. unfold hit. by rewrite E.
Qed.

Lemma hit_twice_witness :
  hit "01" (hit "01" {| locations := ["00"; "01"; "02"]; hits := [false; false; false] |}).2
  = (false, {| locations := ["00"; "01"; "02"]; hits := [false; true; false] |}).
Proof.
  apply (hit_twice "01" {| locations := ["00"; "01"; "02"]; hits := [false; false; false] |}).
  reflexivity.
Defined.

End MoreShip.

(* ------------------------------------------------------------------ *)
(** ** Further properties: the grid and placement *)

Section MorePlacement.

(** X3.  [new Board(n)]: the grid has [n] rows of [n] water cells and nothing
    outside them, no coordinate is guessed, and the board, having no
    ship, does not count as sunk. *)
Theorem newBoard_fresh (n r k : nat) (c : string) :
  cellAt (grid (newBoard n)) r k = (if decide (r < n ∧ k < n) then Some Water else None) ∧
  length (grid (newBoard n)) = n ∧
  hasBeenGuessed (newBoard n) c = false ∧
  allShipsSunk (newBoard n) = false ∧
  getRemainingShipsCount (newBoard n) = 0.
Proof.
  split_and!; try done.
  - unfold cellAt, newBoard, createGrid. simpl.
    destruct (decide (r < n ∧ k < n)) as [[Hr Hk]|Hout].
    + rewrite lookup_replicate_2 by done. by rewrite lookup_replicate_2.
    + destruct (decide (r < n)) as [Hr|Hr].
      * rewrite lookup_replicate_2 by done.
        by rewrite lookup_ge_None_2 by (rewrite length_replicate; lia).
      * by rewrite lookup_ge_None_2 by (rewrite length_replicate; lia).
  - simpl. unfold createGrid. by rewrite length_replicate.
Qed.

(** X4.  [canPlaceShip] answers true exactly when every location is an
    in-bounds coordinate whose cell is water. *)
Theorem canPlaceShip_true_iff (b : Board) (locs : list string) :
  canPlaceShip b locs = Normal true
  ↔ ∀ c : string, c ∈ locs →
      ∃ row col : Z,
        parseCoordinate c = Normal (Num row, Num col) ∧
        isValidCoordinate b (Num row) (Num col) = true ∧
        cellAt (grid b) (Z.to_nat row) (Z.to_nat col) = Some Water.
Proof.
  split.
  - intros Hcan c Hc. by eapply canPlaceShip_true.
  - induction locs as [|location rest IH]; intros Hall; [done|].
    destruct (Hall location) as (row & col & Hparse & Hvalid & Hwater); [left|].
    simpl. rewrite Hparse, Hvalid.
    pose proof Hvalid as Hv. apply isValidCoordinate_spec in Hv as [Hr Hk].
    unfold cellAt in Hwater. unfold gridIsWater, gridRow.
    rewrite bool_decide_eq_true_2 by lia.
    destruct (grid b !! Z.to_nat row) as [cells|]; [|done].
    destruct (cells !! Z.to_nat col) as [[cell|]|] eqn:Hcell; simpl in Hwater; try done.
    injection Hwater as ->.
    rewrite bool_decide_eq_true_2 by lia. rewrite bool_decide_eq_true_2 by done. simpl.
    apply IH. intros c Hc. apply Hall. by right.
Qed.

(** X5.  Once a ship that [canPlaceShip] accepted is placed, [canPlaceShip]
    accepts no list of locations that shares a coordinate with it. *)
Theorem placeShip_blocks_overlap (b : Board) (locs locs2 : list string) (c : string) :
  canPlaceShip b locs = Normal true →
  c ∈ locs → c ∈ locs2 →
  canPlaceShip (placeShip locs b).2 locs2 ≠ Normal true.
Proof.
  intros Hcan Hc Hc2 Hcan2.
  destruct (placeShip_spec b locs Hcan) as (b' & Hplace & _ & _ & _ & _ & _ & Hmarks).
  rewrite Hplace in Hcan2. simpl in Hcan2.
  destruct (canPlaceShip_true b' locs2 c Hcan2 Hc2) as (row & col & Hparse & _ & Hwater).
  rewrite (Hmarks c row col Hc Hparse) in Hwater. discriminate Hwater.
Qed.

Lemma placeShip_blocks_overlap_witness :
  canPlaceShip (placeShip ["23"; "24"; "25"] (newBoard 10)).2 ["24"; "34"; "44"] ≠ Normal true.
Proof.
  apply (placeShip_blocks_overlap (newBoard 10) ["23"; "24"; "25"] ["24"; "34"; "44"] "24").
  - reflexivity.
  - compute_done.
  - compute_done.
Defined.

(** X6.  [generateShipLocations] on a start and a length that keep the ship
    among the digits: it gives [shipLength] different locations, and
    location [i] parses back to the start moved [i] cells along the
    orientation. *)
Theorem generateShipLocations_cells (startRow startCol : Z) (shipLength : nat)
    (o : Orientation) :
  (0 ≤ startRow)%Z → (0 ≤ startCol)%Z →
  match o with
  | Horizontal => (startRow ≤ 9 ∧ startCol + Z.of_nat shipLength ≤ 10)%Z
  | Vertical => (startRow + Z.of_nat shipLength ≤ 10 ∧ startCol ≤ 9)%Z
  end →
  length (generateShipLocations startRow startCol shipLength o) = shipLength ∧
  NoDup (generateShipLocations startRow startCol shipLength o) ∧
  ∀ i : nat, i < shipLength →
    ∃ c : string,
      generateShipLocations startRow startCol shipLength o !! i = Some c ∧
      parseCoordinate c
      = Normal (match o with
                | Horizontal => (Num startRow, Num (startCol + Z.of_nat i))
                | Vertical => (Num (startRow + Z.of_nat i), Num startCol)
                end).
Proof.
  intros Hr Hc Hfit. unfold generateShipLocations.
  assert (Hparse : ∀ i : nat, i < shipLength →
    parseCoordinate
      (coordinateString
         match o with Horizontal => startRow | Vertical => (startRow + Z.of_nat i)%Z end
         match o with Horizontal => (startCol + Z.of_nat i)%Z | Vertical => startCol end)
    = Normal (match o with
              | Horizontal => (Num startRow, Num (startCol + Z.of_nat i))
              | Vertical => (Num (startRow + Z.of_nat i), Num startCol)
              end)).
  { intros i Hi. destruct o; apply parse_coordinateString; lia. }
  split_and!.
  - by rewrite length_fmap, length_seq.
  - apply NoDup_fmap_2_strong; [|apply NoDup_seq].
    intros i j Hi Hj Heq. apply elem_of_seq in Hi, Hj.
    pose proof (Hparse i ltac:(lia)) as Pi. pose proof (Hparse j ltac:(lia)) as Pj.
    simpl in Heq. rewrite Heq in Pi. rewrite Pi in Pj.
    destruct o; injection Pj; lia.
  - intros i Hi. eexists. split.
    + rewrite list_lookup_fmap, lookup_seq_lt by done. reflexivity.
    + by apply Hparse.
Qed.

Lemma generateShipLocations_cells_witness :
  NoDup (generateShipLocations 2 3 3 Horizontal).
Proof.
  apply (generateShipLocations_cells 2 3 3 Horizontal); simpl; lia.
Defined.

(** X7.  [getRandomStartPosition] for a ship no longer than a non-empty board:
    whatever the two random values it reads are, the start it returns
    keeps the whole ship on the board. *)
Theorem getRandomStartPosition_fits (b : Board) (shipLength : nat) (o : Orientation)
    (g : Random) :
  0 < size b → shipLength ≤ size b →
  ∃ (startRow startCol : Z) (g' : Random),
    getRandomStartPosition b shipLength o g = ((startRow, startCol), g') ∧
    draws g' = draws g ∧ cursor g' = cursor g + 2 ∧
    (0 ≤ startRow)%Z ∧ (0 ≤ startCol)%Z ∧
    match o with
    | Horizontal =>
        (startRow < Z.of_nat (size b) ∧ startCol + Z.of_nat shipLength ≤ Z.of_nat (size b))%Z
    | Vertical =>
        (startRow + Z.of_nat shipLength ≤ Z.of_nat (size b) ∧ startCol < Z.of_nat (size b))%Z
    end.
Proof.
  intros Hsize Hlen. unfold getRandomStartPosition, randomFloor, Math_random.
  pose proof (floorTimes_range (draws g (cursor g)) (Z.of_nat (size b))) as H1.
  pose proof (floorTimes_range (draws g (S (cursor g))) (Z.of_nat (size b))) as H2.
  pose proof (floorTimes_range (draws g (cursor g))
                (Z.of_nat (size b) - Z.of_nat shipLength + 1)) as H3.
  pose proof (floorTimes_range (draws g (S (cursor g)))
                (Z.of_nat (size b) - Z.of_nat shipLength + 1)) as H4.
  destruct o; cbn [draws cursor]; eexists _, _, _; (split; [reflexivity|]);
    cbn [draws cursor]; split_and!; (done || lia).
Qed.

Lemma getRandomStartPosition_fits_witness :
  ∃ (startRow startCol : Z) (g' : Random),
    getRandomStartPosition (newBoard 10) 3 Horizontal tenthsSource
    = ((startRow, startCol), g') ∧
    (startCol + 3 ≤ 10)%Z.
Proof.
  destruct (getRandomStartPosition_fits (newBoard 10) 3 Horizontal tenthsSource)
    as (startRow & startCol & g' & Hrun & _ & _ & _ & _ & _ & Hfit); [simpl; lia..|].
  exists startRow, startCol, g'. split; [exact Hrun|]. simpl in Hfit. lia.
Defined.

End MorePlacement.

(* ------------------------------------------------------------------ *)
(** ** Further properties: resolving a guess *)

Section MoreGuess.

Lemma gridSet_length (row col : JsNumber) (v : Cell) (g g' : Grid) :
  gridSet row col v g = Normal g' → length g' = length g.
Proof.
  unfold gridSet. destruct (gridRow g row) as [cells|]; [|done].
  destruct row as [r|]; [|done]. destruct col as [k|]; [|by intros [= <-]].
  case_bool_decide; intros [= <-]; [|done]. by rewrite length_insert.
Qed.

Lemma hitFirstShip_locations (c : string) (i : nat) (l : list Ship) :
  locations <$> (hitFirstShip c i l).2 = locations <$> l.
Proof.
  revert i. induction l as [|s rest IH]; intros i; [done|]. simpl.
  pose proof (hit_locations c s) as Hloc.
  destruct (hit c s) as [wasHit s']. simpl in Hloc. destruct wasHit; simpl.
  - by rewrite Hloc.
  - specialize (IH (S i)). destruct (hitFirstShip c (S i) rest) as [found rest'].
    simpl in IH. cbn [snd]. rewrite !fmap_cons. by rewrite Hloc, IH.
Qed.

(** No ship can be hit: the loop finds nothing and changes no ship. *)
Lemma hitFirstShip_none (c : string) (i : nat) (l : list Ship) :
  (∀ s : Ship, s ∈ l → (hit c s).1 = false) → hitFirstShip c i l = (None, l).
Proof.
  revert i. induction l as [|s rest IH]; intros i Hall; [done|]. simpl.
  pose proof (Hall s ltac:(left)) as Hs. pose proof (hit_false_same c s Hs) as Hsame.
  destruct (hit c s) as [wasHit s']. simpl in Hs, Hsame. subst.
  rewrite IH; [done|]. intros t Ht. apply Hall. by right.
Qed.

(** Ship [k] can be hit and none before it: the loop stops there. *)
Lemma hitFirstShip_some (c : string) (i k : nat) (l : list Ship) (s : Ship) :
  l !! k = Some s → (hit c s).1 = true →
  (∀ (j : nat) (t : Ship), j < k → l !! j = Some t → (hit c t).1 = false) →
  hitFirstShip c i l = (Some (i + k, isSunk (hit c s).2), <[k := (hit c s).2]> l).
Proof.
  revert i k. induction l as [|t rest IH]; intros i k Hk Hhit Hbefore; [done|].
  destruct k as [|k]; simpl in Hk.
  - injection Hk as ->. simpl. destruct (hit c s) as [wasHit s']. simpl in Hhit. subst.
    simpl. by rewrite Nat.add_0_r.
  - simpl. pose proof (Hbefore 0 t ltac:(lia) eq_refl) as Ht.
    pose proof (hit_false_same c t Ht) as Hsame.
    destruct (hit c t) as [wasHit t']. simpl in Ht, Hsame. subst.
    rewrite (IH (S i) k Hk Hhit).
    + simpl. do 3 f_equal. lia.
    + intros j u Hj Hu. apply (Hbefore (S j) u); [lia|done].
Qed.

(** X8.  [processGuess] never takes a coordinate out of the guessed-set, always
    leaves the guessed coordinate in it, and never changes the size of the
    board, the number of its rows, the number of its ships or the
    locations of a ship, however the call ends. *)
Theorem processGuess_keeps (c : string) (b : Board) :
  guesses b ⊆ guesses (processGuess c b).2 ∧
  c ∈ guesses (processGuess c b).2 ∧
  size (processGuess c b).2 = size b ∧
  length (grid (processGuess c b).2) = length (grid b) ∧
  locations <$> ships (processGuess c b).2 = locations <$> ships b.
Proof.
  unfold processGuess. destruct (hasBeenGuessed b c) eqn:Hguessed.
  { simpl. split_and!; try done. by apply bool_decide_eq_true in Hguessed. }
  destruct (parseCoordinate c) as [[row col]|e]; simpl.
  2: { split_and!; try done; set_solver. }
  pose proof (hitFirstShip_locations c 0 (ships b)) as Hloc.
  destruct (hitFirstShip c 0 (ships b)) as [[[index sunkNow]|] l]; simpl in *.
  - destruct (gridSet row col HitMark (grid b)) as [g'|e] eqn:Hset; simpl.
    + apply gridSet_length in Hset. split_and!; try done; set_solver.
    + split_and!; try done; set_solver.
  - destruct (gridSet row col MissMark (grid b)) as [g'|e] eqn:Hset; simpl.
    + apply gridSet_length in Hset. split_and!; try done; set_solver.
    + split_and!; try done; set_solver.
Qed.

(** X9.  Guessing the same coordinate again right after any [processGuess],
    successful or not, answers [alreadyGuessed] and changes nothing. *)
Theorem processGuess_twice (c : string) (b : Board) :
  processGuess c (processGuess c b).2 = (Normal repeatedGuess, (processGuess c b).2).
Proof.
  pose proof (processGuess_records c b) as Hrec.
  unfold processGuess at 1. by rewrite Hrec.
Qed.

(** X10.  A new guess at a cell of an existing row that no ship occupies is a
    miss: the cell gets the miss symbol, every other cell and every ship
    stay as they were, and the coordinate joins the guessed-set. *)
Theorem processGuess_miss (c : string) (b : Board) (row col : Z) :
  hasBeenGuessed b c = false →
  parseCoordinate c = Normal (Num row, Num col) →
  Z.to_nat row < length (grid b) →
  (∀ s : Ship, s ∈ ships b → c ∉ locations s) →
  ∃ b' : Board,
    processGuess c b = (Normal missResult, b') ∧
    ships b' = ships b ∧
    guesses b' = {[c]} ∪ guesses b ∧
    cellAt (grid b') (Z.to_nat row) (Z.to_nat col) = Some MissMark ∧
    ∀ r k : nat, (r, k) ≠ (Z.to_nat row, Z.to_nat col) →
                 cellAt (grid b') r k = cellAt (grid b) r k.
Proof.
  intros Hfresh Hparse Hrow Hnone.
  destruct (parseCoordinate_inv c row col Hparse) as (Hr & Hc & _).
  destruct (gridSet_row (grid b) row col MissMark) as (g' & Hset & _ & Hcell & Hrest);
    [lia | lia |].
  unfold processGuess. rewrite Hfresh, Hparse. simpl.
  rewrite hitFirstShip_none.
  - simpl. rewrite Hset. eexists. split; [reflexivity|]. simpl. done.
  - intros s Hs. unfold hit.
    rewrite (proj2 (indexOf_None c (locations s))); [done|]. by apply Hnone.
Qed.

Lemma processGuess_miss_witness :
  ∃ b' : Board,
    processGuess "00" (placeShip ["23"; "24"; "25"] (newBoard 10)).2 = (Normal missResult, b') ∧
    cellAt (grid b') 0 0 = Some MissMark.
Proof.
  destruct (processGuess_miss "00" (placeShip ["23"; "24"; "25"] (newBoard 10)).2 0 0)
    as (b' & Hrun & _ & _ & Hcell & _).
  - reflexivity.
  - reflexivity.
  - simpl. lia.
  - intros s Hs. simpl in Hs. apply list_elem_of_singleton in Hs as ->. simpl. compute_done.
  - exists b'. split; [exact Hrun | exact Hcell].
Defined.

Lemma disjointShips_singleton (s : Ship) : disjointShips [s].
Proof.
  intros i j s1 s2 c Hij Hs1 Hs2.
  apply list_lookup_singleton_Some in Hs1 as [Hi _].
  apply list_lookup_singleton_Some in Hs2 as [Hj _]. lia.
Qed.

(** X11.  A new guess at a cell of ship [i] whose flag is still down, on a
    board whose ships share no coordinate, is a hit on that ship: its flag
    goes up, no other ship changes, the cell gets the hit symbol, and
    [sunk] is true exactly when every other flag of the ship was up. *)
Theorem processGuess_hit (c : string) (b : Board) (row col : Z) (i k : nat) (s : Ship) :
  hasBeenGuessed b c = false →
  parseCoordinate c = Normal (Num row, Num col) →
  Z.to_nat row < length (grid b) →
  disjointShips (ships b) →
  ships b !! i = Some s →
  shipShape s → NoDup (locations s) →
  locations s !! k = Some c → hits s !! k = Some false →
  ∃ (b' : Board) (s' : Ship),
    s' = {| locations := locations s; hits := <[k := true]> (hits s) |} ∧
    processGuess c b
    = (Normal {| hitR := true; sunk := isSunk s'; alreadyGuessed := false; ship := Some i |},
       b') ∧
    ships b' = <[i := s']> (ships b) ∧
    guesses b' = {[c]} ∪ guesses b ∧
    cellAt (grid b') (Z.to_nat row) (Z.to_nat col) = Some HitMark ∧
    (isSunk s' = true
     ↔ ∀ (j : nat) (flag : bool), j ≠ k → hits s !! j = Some flag → flag = true).
Proof.
  intros Hfresh Hparse Hrow Hdisj Hi Hshape Hnd Hk Hflag.
  destruct (parseCoordinate_inv c row col Hparse) as (Hr & Hc & _).
  destruct (gridSet_row (grid b) row col HitMark) as (g' & Hset & _ & Hcell & _);
    [lia | lia |].
  assert (Hhit : hit c s = (true, {| locations := locations s;
                                      hits := <[k := true]> (hits s) |})).
  { unfold hit. rewrite (indexOf_NoDup _ _ _ Hnd Hk), Hflag. done. }
  assert (Hfirst : hitFirstShip c 0 (ships b)
                   = (Some (i, isSunk (hit c s).2), <[i := (hit c s).2]> (ships b))).
  { apply (hitFirstShip_some c 0 i (ships b) s Hi).
    - by rewrite Hhit.
    - intros j t Hj Ht. unfold hit.
      rewrite (proj2 (indexOf_None c (locations t))); [done|].
      apply (Hdisj i j s t c); [lia|done|done|]. by eapply list_elem_of_lookup_2. }
  rewrite Hhit in Hfirst. simpl in Hfirst.
  unfold processGuess. rewrite Hfresh, Hparse. simpl. rewrite Hfirst. simpl. rewrite Hset.
  eexists _, _. split; [reflexivity|]. split; [reflexivity|]. simpl. split_and!; try done.
  rewrite isSunk_flags. simpl. split.
  - intros Hall j flag Hj Hjf. apply (Hall j). by rewrite list_lookup_insert_ne.
  - intros Hall j flag Hjf. destruct (decide (j = k)) as [->|Hne].
    + rewrite list_lookup_insert_eq in Hjf by (by eapply lookup_lt_Some). congruence.
    + rewrite list_lookup_insert_ne in Hjf by done. by eapply Hall.
Qed.

Lemma processGuess_hit_witness :
  ∃ b' : Board,
    processGuess "24" (placeShip ["23"; "24"; "25"] (newBoard 10)).2
    = (Normal {| hitR := true; sunk := false; alreadyGuessed := false; ship := Some 0 |}, b') ∧
    cellAt (grid b') 2 4 = Some HitMark.
Proof.
  destruct (processGuess_hit "24" (placeShip ["23"; "24"; "25"] (newBoard 10)).2 2 4 0 1
              {| locations := ["23"; "24"; "25"]; hits := [false; false; false] |})
    as (b' & s' & -> & Hrun & _ & _ & Hcell & _).
  - reflexivity.
  - reflexivity.
  - simpl. lia.
  - apply disjointShips_singleton.
  - reflexivity.
  - reflexivity.
  - compute_done.
  - reflexivity.
  - reflexivity.
  - exists b'. split; [exact Hrun | exact Hcell].
Defined.

Lemma allShipsSunk_iff (b : Board) :
  allShipsSunk b = true ↔ ships b ≠ [] ∧ getRemainingShipsCount b = 0.
Proof.
  unfold allShipsSunk, getRemainingShipsCount.
  assert (Hcount : ∀ l : list Ship,
            forallb isSunk l = true ↔ length (filter (fun s => isSunk s = false) l) = 0).
  { induction l as [|s l IH]; [done|]. simpl. rewrite andb_true_iff, IH.
    destruct (isSunk s) eqn:E.
    - rewrite filter_cons_False by congruence. naive_solver.
    - rewrite filter_cons_True by done. simpl. naive_solver. }
  rewrite andb_true_iff, bool_decide_eq_true, Hcount.
  destruct (ships b); simpl; [|naive_solver lia]. split; [lia|]. by intros [? _].
Qed.

(** X12.  [allShipsSunk()] is true exactly when the board has a ship and
    [getRemainingShipsCount()] is 0; a board without ships is never sunk;
    and the remaining count never exceeds the number of ships. *)
Theorem allShipsSunk_remaining (b : Board) :
  (allShipsSunk b = true ↔ ships b ≠ [] ∧ getRemainingShipsCount b = 0) ∧
  (ships b = [] → allShipsSunk b = false) ∧
  getRemainingShipsCount b ≤ length (ships b).
Proof.
  split_and!.
  - apply allShipsSunk_iff.
  - unfold allShipsSunk. by intros ->.
  - apply length_filter.
Qed.

End MoreGuess.

(* ------------------------------------------------------------------ *)
(** ** Further properties: the human player's turn *)

Section MoreHuman.

(** The range test of [validateGuess] passes exactly for two digits. *)
Lemma twoDigits_scanOrder (c0 c1 : ascii) :
  isNaN (parseIntChar c0) || isNaN (parseIntChar c1)
  || jsLt (parseIntChar c0) 0 || jsGe (parseIntChar c0) 10
  || jsLt (parseIntChar c1) 0 || jsGe (parseIntChar c1) 10 = false
  ↔ String c0 (String c1 EmptyString) ∈ scanOrder.
Proof.
  split.
  - intros Hrange.
    destruct (parseIntChar c0) as [r|] eqn:E0; [|done].
    destruct (parseIntChar c1) as [k|] eqn:E1; [|done].
    apply scanOrder_elem. exists r, k.
    apply (parseCoordinate_inv (String c0 (String c1 EmptyString))). simpl. by rewrite E0, E1.
  - intros Hin. apply scanOrder_elem in Hin as (r & k & Hr & Hk & Heq).
    pose proof (parse_coordinateString r k Hr Hk) as Hparse. rewrite <- Heq in Hparse.
    simpl in Hparse. injection Hparse as -> ->. simpl.
    rewrite !orb_false_iff, !bool_decide_eq_false. lia.
Qed.

Lemma scanOrder_two_chars (input : string) :
  input ∈ scanOrder → ∃ c0 c1 : ascii, input = String c0 (String c1 EmptyString).
Proof.
  intros Hin. apply scanOrder_elem in Hin as (r & k & Hr & Hk & ->).
  pose proof (parse_coordinateString r k Hr Hk) as Hparse.
  remember (coordinateString r k) as input eqn:Hinput. clear Hinput.
  destruct input as [|c0 [|c1 [|c2 rest]]]; [done | done | | done]. by exists c0, c1.
Qed.

(** On two digits [validateGuess] only looks at the guessed-set. *)
Lemma validateGuess_digits (p : Player) (input : string) :
  input ∈ scanOrder →
  validateGuess p input
  = if hasBeenGuessed (opponentBoard p) input
    then Invalid "You already guessed that location!"
    else Valid input.
Proof.
  intros Hin. destruct (scanOrder_two_chars input Hin) as (c0 & c1 & ->).
  pose proof (proj2 (twoDigits_scanOrder c0 c1) Hin) as Hrange.
  unfold validateGuess. by rewrite Hrange.
Qed.

(** Anything else is rejected for its format or its range. *)
Lemma validateGuess_other (p : Player) (input : string) :
  input ∉ scanOrder →
  ∃ e : string,
    validateGuess p input = Invalid e ∧ e ≠ "You already guessed that location!".
Proof.
  intros Hout. unfold validateGuess.
  destruct input as [|c0 [|c1 [|c2 rest]]]; try (by eexists).
  destruct (isNaN (parseIntChar c0) || _ || _ || _ || _ || _) eqn:Hrange.
  - by eexists.
  - exfalso. apply Hout. by apply twoDigits_scanOrder.
Qed.

(** X13.  [validateGuess] accepts an input exactly when it is two digits that
    are not in the guessed-set of the tracking board, and hands it back
    unchanged; it answers "already guessed" exactly for two digits that
    are in that set. *)
Theorem validateGuess_valid_iff (p : Player) (input c : string) :
  (validateGuess p input = Valid c
   ↔ c = input ∧ input ∈ scanOrder ∧ hasBeenGuessed (opponentBoard p) input = false) ∧
  (validateGuess p input = Invalid "You already guessed that location!"
   ↔ input ∈ scanOrder ∧ hasBeenGuessed (opponentBoard p) input = true).
Proof.
  destruct (decide (input ∈ scanOrder)) as [Hin|Hout].
  - rewrite (validateGuess_digits p input Hin).
    destruct (hasBeenGuessed (opponentBoard p) input); split; split;
      try (intros [= <-]); try (intros (? & ? & ?)); try (intros [? ?]); try done.
    by subst.
  - destruct (validateGuess_other p input Hout) as (e & -> & He). split; split.
    + done.
    + by intros (_ & ? & _).
    + intros [= ->]. done.
    + by intros [? _].
Qed.

(** What a human turn that resolves to true has done. *)
Lemma handlePlayerTurn_true (input : string) (gm gm' : Game) (calls : list DisplayCall) :
  handlePlayerTurn input gm = (Normal (true, calls), gm') →
  trim input ∈ scanOrder ∧
  opponentBoard (humanPlayer gm')
  = (processGuess (trim input) (opponentBoard (humanPlayer gm))).2.
Proof.
  unfold handlePlayerTurn.
  destruct (validateGuess (humanPlayer gm) (trim input)) as [c|e] eqn:Hvalid;
    [|by intros [= <-]].
  assert (c = trim input ∧ trim input ∈ scanOrder) as [-> Hin].
  { destruct (decide (trim input ∈ scanOrder)) as [Hin|Hout].
    - rewrite (validateGuess_digits _ _ Hin) in Hvalid.
      destruct (hasBeenGuessed _ _); [done|]. by injection Hvalid as <-.
    - destruct (validateGuess_other (humanPlayer gm) _ Hout) as (e & He & _). congruence. }
  destruct (receiveGuess (trim input) (base (cpuPlayer gm))) as [[result|e] p']; [|done].
  cbn [humanPlayer withCPU].
  destruct (processGuess (trim input) (opponentBoard (humanPlayer gm))) as [[r|e] ob']; [|done].
  intros [= _ <-]. done.
Qed.

(** X14.  A human turn that resolves to false (malformed, out of range or
    repeated input) leaves the whole game as it was and only shows an
    error. *)
Theorem handlePlayerTurn_rejected (input : string) (gm gm' : Game)
    (calls : list DisplayCall) :
  handlePlayerTurn input gm = (Normal (false, calls), gm') →
  gm' = gm ∧ ∃ e : string, calls = [ShowPlayerTurnPrompt; ShowError e].
Proof.
  unfold handlePlayerTurn.
  destruct (validateGuess (humanPlayer gm) (trim input)) as [c|e].
  - destruct (receiveGuess c (base (cpuPlayer gm))) as [[result|e] p']; [|done].
    destruct (processGuess c _) as [[r|e] ob']; done.
  - intros [= <- <-]. split; [done|]. by exists e.
Qed.

Lemma handlePlayerTurn_rejected_witness :
  (handlePlayerTurn "7" gameWithShipAt00).2 = gameWithShipAt00.
Proof.
  refine (proj1 (handlePlayerTurn_rejected "7" gameWithShipAt00 _
                   [ShowPlayerTurnPrompt;
                    ShowError "Input must be exactly two digits (e.g., 00, 34, 98)."] _)).
  reflexivity.
Defined.

(** X15.  After a human turn that resolved to true, the same input is rejected
    as already guessed and the game does not move. *)
Theorem handlePlayerTurn_repeat (input : string) (gm gm' : Game)
    (calls : list DisplayCall) :
  handlePlayerTurn input gm = (Normal (true, calls), gm') →
  handlePlayerTurn input gm'
  = (Normal (false, [ShowPlayerTurnPrompt; ShowError "You already guessed that location!"]),
     gm').
Proof.
  intros Hturn. apply handlePlayerTurn_true in Hturn as [Hin Hob].
  assert (validateGuess (humanPlayer gm') (trim input)
          = Invalid "You already guessed that location!") as Hvalid.
  { rewrite (validateGuess_digits _ _ Hin). rewrite Hob.
    by rewrite processGuess_records. }
  unfold handlePlayerTurn. by rewrite Hvalid.
Qed.

Lemma handlePlayerTurn_repeat_witness :
  (handlePlayerTurn " 00 " (handlePlayerTurn " 00 " gameWithShipAt00).2).1
  = Normal (false, [ShowPlayerTurnPrompt; ShowError "You already guessed that location!"]).
Proof.
  assert (Hfirst : ∃ calls, handlePlayerTurn " 00 " gameWithShipAt00
                            = (Normal (true, calls), (handlePlayerTurn " 00 " gameWithShipAt00).2)).
  { eexists. vm_compute. reflexivity. }
  destruct Hfirst as [calls Hfirst].
  by rewrite (handlePlayerTurn_repeat " 00 " gameWithShipAt00 _ calls Hfirst).
Defined.

End MoreHuman.

(* ------------------------------------------------------------------ *)
(** ** Further properties: the CPU player *)

Section MoreCPU.

(** X16.  The queue is served first in, first out: the entries at its head that
    are guessed already are dropped, the first unguessed entry is the
    guess, the entries behind it stay queued, the mode stays Target and no
    random value is read. *)
Theorem generateGuess_target_fifo (cpu : CPUPlayer) (g : Random)
    (skipped rest : list string) (c : string) :
  mode cpu = Target →
  targetQueue cpu = skipped ++ c :: rest →
  (∀ q : string, q ∈ skipped → hasBeenGuessed (opponentBoard (base cpu)) q = true) →
  hasBeenGuessed (opponentBoard (base cpu)) c = false →
  generateGuess cpu g = (c, withTargetQueue rest cpu, g).
Proof.
  intros Hmode Hqueue Hskipped Hfree.
  assert (Hshift : ∀ (first : string) (queue : list string),
            first :: queue = skipped ++ c :: rest →
            shiftWhileGuessed (opponentBoard (base cpu)) first queue = (c, rest)).
  { clear Hqueue. revert Hskipped.
    induction skipped as [|q skipped IH]; intros Hskipped first queue Heq.
    - injection Heq as -> ->. destruct rest; simpl; by rewrite ?Hfree.
    - injection Heq as Hq Htail. subst first queue.
      destruct (skipped ++ c :: rest) as [|next tail] eqn:Htail; [by destruct skipped|].
      simpl. rewrite (Hskipped q) by left.
      apply IH; [|done]. intros q' Hq'. apply Hskipped. by right. }
  unfold generateGuess. rewrite Hmode, Hqueue.
  destruct (skipped ++ c :: rest) as [|first queue] eqn:Heq.
  { by destruct skipped. }
  rewrite (Hshift first queue eq_refl). cbn [base opponentBoard withTargetQueue].
  by rewrite Hfree.
Qed.

Lemma generateGuess_target_fifo_witness :
  generateGuess (processGuessResult "44" hitNotSunk (newCPUPlayer "CPU")).2 zeroSource
  = ("34",
     withTargetQueue ["54"; "43"; "45"]
       (processGuessResult "44" hitNotSunk (newCPUPlayer "CPU")).2,
     zeroSource).
Proof.
  apply (generateGuess_target_fifo _ zeroSource [] ["54"; "43"; "45"] "34").
  - reflexivity.
  - reflexivity.
  - intros q Hq. by apply elem_of_nil in Hq.
  - by vm_compute.
Defined.

(** When the write on the tracking grid succeeds, [processGuessResult]
    returns, and the player's boards are the own board as before and the
    tracking board with the guess added and the written grid. *)
Lemma processGuessResult_tracking (cpu : CPUPlayer) (c : string) (row col : JsNumber)
    (result : GuessResult) (g' : Grid) :
  parseCoordinate c = Normal (row, col) →
  gridSet row col (if hitR result then HitMark else MissMark)
    (grid (opponentBoard (base cpu))) = Normal g' →
  ∃ cpu' : CPUPlayer,
    processGuessResult c result cpu = (Normal tt, cpu') ∧
    base cpu'
    = withOpponentBoard
        (withGrid g' (withGuesses ({[c]} ∪ guesses (opponentBoard (base cpu)))
                                  (opponentBoard (base cpu))))
        (base cpu).
Proof.
  intros Hparse Hset.
  unfold processGuessResult. rewrite Hparse. cbn [grid withGuesses].
  destruct (hitR result).
  - rewrite Hset. destruct (sunk result).
    + eexists. split; reflexivity.
    + unfold addAdjacentTargets. rewrite Hparse. eexists. split; reflexivity.
  - rewrite Hset. cbn [mode targetQueue withTracking withBase].
    destruct (mode cpu), (targetQueue cpu); eexists; split; reflexivity.
Qed.

(** X17.  [processGuessResult] for a coordinate of the tracking board records
    the result it is given: the coordinate joins the tracking board's
    guessed-set, its cell gets the hit symbol for a hit and the miss symbol
    otherwise, no other cell changes, and the player's own board is not
    touched. *)
Theorem processGuessResult_records (cpu : CPUPlayer) (c : string) (row col : Z)
    (result : GuessResult) :
  parseCoordinate c = Normal (Num row, Num col) →
  isValidCoordinate (opponentBoard (base cpu)) (Num row) (Num col) = true →
  length (grid (opponentBoard (base cpu))) = size (opponentBoard (base cpu)) →
  ∃ cpu' : CPUPlayer,
    processGuessResult c result cpu = (Normal tt, cpu') ∧
    board (base cpu') = board (base cpu) ∧
    size (opponentBoard (base cpu')) = size (opponentBoard (base cpu)) ∧
    length (grid (opponentBoard (base cpu'))) = length (grid (opponentBoard (base cpu))) ∧
    guesses (opponentBoard (base cpu')) = {[c]} ∪ guesses (opponentBoard (base cpu)) ∧
    cellAt (grid (opponentBoard (base cpu'))) (Z.to_nat row) (Z.to_nat col)
    = Some (if hitR result then HitMark else MissMark) ∧
    ∀ r k : nat, (r, k) ≠ (Z.to_nat row, Z.to_nat col) →
      cellAt (grid (opponentBoard (base cpu'))) r k
      = cellAt (grid (opponentBoard (base cpu))) r k.
Proof.
  intros Hparse Hvalid Hrows.
  apply isValidCoordinate_spec in Hvalid as [Hr Hk].
  destruct (gridSet_row (grid (opponentBoard (base cpu))) row col
              (if hitR result then HitMark else MissMark))
    as (g' & Hset & Hlen & Hcell & Hrest); [lia | lia |].
  destruct (processGuessResult_tracking cpu c (Num row) (Num col) result g' Hparse Hset)
    as (cpu' & Hrun & Hbase).
  exists cpu'. rewrite Hbase. simpl. split_and!; done.
Qed.

Lemma processGuessResult_records_witness :
  ∃ cpu' : CPUPlayer,
    processGuessResult "44" missResult (newCPUPlayer "CPU") = (Normal tt, cpu') ∧
    cellAt (grid (opponentBoard (base cpu'))) 4 4 = Some MissMark.
Proof.
  destruct (processGuessResult_records (newCPUPlayer "CPU") "44" 4 4 missResult)
    as (cpu' & Hrun & _ & _ & _ & _ & Hcell & _); try reflexivity.
  exists cpu'. split; [exact Hrun | exact Hcell].
Defined.

(** X18.  A miss keeps the queue and the last hit; it ends Target mode only
    when the queue is empty. *)
Theorem processGuessResult_miss (cpu : CPUPlayer) (c : string) (row col : Z)
    (result : GuessResult) :
  parseCoordinate c = Normal (Num row, Num col) →
  isValidCoordinate (opponentBoard (base cpu)) (Num row) (Num col) = true →
  length (grid (opponentBoard (base cpu))) = size (opponentBoard (base cpu)) →
  hitR result = false →
  ∃ cpu' : CPUPlayer,
    processGuessResult c result cpu = (Normal tt, cpu') ∧
    targetQueue cpu' = targetQueue cpu ∧
    lastHit cpu' = lastHit cpu ∧
    mode cpu' = match mode cpu, targetQueue cpu with
                | Target, [] => Hunt
                | m, _ => m
                end.
Proof.
  intros Hparse Hvalid Hrows Hmiss.
  destruct (tracking_update cpu c row col MissMark Hvalid Hrows) as (g' & Hset & _).
  unfold processGuessResult. rewrite Hparse, Hmiss. cbn [grid withGuesses]. rewrite Hset.
  cbn [mode targetQueue withTracking withBase].
  destruct (mode cpu) eqn:Hmode, (targetQueue cpu) eqn:Hqueue;
    eexists; (split; [reflexivity|]); simpl; rewrite ?Hmode, ?Hqueue; done.
Qed.

Lemma processGuessResult_miss_witness :
  ∃ cpu' : CPUPlayer,
    processGuessResult "34" missResult
      (processGuessResult "44" hitNotSunk (newCPUPlayer "CPU")).2 = (Normal tt, cpu') ∧
    mode cpu' = Target.
Proof.
  destruct (processGuessResult_miss
              (processGuessResult "44" hitNotSunk (newCPUPlayer "CPU")).2 "34" 3 4 missResult)
    as (cpu' & Hrun & _ & _ & Hmode); try reflexivity.
  exists cpu'. split; [exact Hrun | exact Hmode].
Defined.

Lemma shiftWhileGuessed_suffix (ob : Board) (coordinate : string) (queue : list string) :
  ∀ q : string,
    q = (shiftWhileGuessed ob coordinate queue).1 ∨ q ∈ (shiftWhileGuessed ob coordinate queue).2 →
    q = coordinate ∨ q ∈ queue.
Proof.
  revert coordinate. induction queue as [|next rest IH]; intros coordinate q; simpl; [done|].
  destruct (hasBeenGuessed ob coordinate); [|done].
  intros Hq. right. apply IH in Hq as [->|Hq]; [left|by right].
Qed.

(** [generateGuess] leaves nothing queued when it falls back to Hunt mode. *)
Lemma generateGuess_huntQueueEmpty (cpu : CPUPlayer) (g : Random) :
  huntQueueEmpty cpu → huntQueueEmpty (generateGuess cpu g).1.2.
Proof.
  intros Hinv. unfold huntQueueEmpty in *. unfold generateGuess.
  destruct (mode cpu) eqn:Hmode.
  - destruct (generateHuntGuess (withMode Hunt cpu) g) as [guess g']. simpl.
    intros _. exact (Hinv eq_refl).
  - destruct (targetQueue cpu) as [|first rest] eqn:Hqueue.
    + destruct (generateHuntGuess (withMode Hunt cpu) g) as [guess g']. simpl. by intros _.
    + destruct (shiftWhileGuessed_spec (opponentBoard (base cpu)) first rest)
        as (c' & queue' & Hshift & Hempty).
      rewrite Hshift. cbn [base opponentBoard withTargetQueue].
      destruct (hasBeenGuessed (opponentBoard (base cpu)) c') eqn:Hc'.
      * destruct (generateHuntGuess _ g) as [guess g']. simpl. intros _. by apply Hempty.
      * simpl. by rewrite Hmode.
Qed.

(** [processGuessResult] goes to Hunt mode with the queue cleared (a sunk
    ship) or empty (a miss), and stays in it on a miss or a throw. *)
Lemma processGuessResult_huntQueueEmpty (c : string) (result : GuessResult) (cpu : CPUPlayer) :
  huntQueueEmpty cpu → huntQueueEmpty (processGuessResult c result cpu).2.
Proof.
  intros Hinv. unfold huntQueueEmpty in *. unfold processGuessResult.
  destruct (parseCoordinate c) as [[row col]|e] eqn:Hparse; [|done].
  cbn [grid withGuesses]. destruct (hitR result).
  - destruct (gridSet row col HitMark _) as [g'|e]; [|done].
    destruct (sunk result); [done|].
    unfold addAdjacentTargets. rewrite Hparse. simpl. done.
  - destruct (gridSet row col MissMark _) as [g'|e]; [|done].
    cbn [mode targetQueue withTracking withBase].
    destruct (mode cpu) eqn:Hmode, (targetQueue cpu) eqn:Hqueue; simpl; try done.
    all: intros Hm; try done; try congruence; by specialize (Hinv eq_refl).
Qed.

(** X19.  "In Hunt mode nothing is queued" is an invariant of the CPU player:
    [generateGuess] and [processGuessResult] keep it, however they end. *)
Theorem huntQueueEmpty_kept (cpu : CPUPlayer) :
  huntQueueEmpty cpu →
  (∀ g : Random, huntQueueEmpty (generateGuess cpu g).1.2) ∧
  (∀ (c : string) (result : GuessResult), huntQueueEmpty (processGuessResult c result cpu).2).
Proof.
  intros Hinv. split.
  - intros g. exact (generateGuess_huntQueueEmpty cpu g Hinv).
  - intros c result. exact (processGuessResult_huntQueueEmpty c result cpu Hinv).
Qed.

Lemma huntQueueEmpty_kept_witness :
  huntQueueEmpty (processGuessResult "45" hitAndSunk
                    (processGuessResult "44" hitNotSunk (newCPUPlayer "CPU")).2).2.
Proof.
  apply (huntQueueEmpty_kept (processGuessResult "44" hitNotSunk (newCPUPlayer "CPU")).2).
  intros Hmode. discriminate Hmode.
Defined.

End MoreCPU.

(* ------------------------------------------------------------------ *)
(** ** CPUPlayer: a hit in Hunt mode, on the states of a game *)

Section HitFromHunt.

Lemma generateGuess_base (cpu : CPUPlayer) (g : Random) :
  base (generateGuess cpu g).1.2 = base cpu.
Proof.
  unfold generateGuess.
  destruct (mode cpu); [by destruct (generateHuntGuess _ g)|].
  destruct (targetQueue cpu) as [|first rest]; [by destruct (generateHuntGuess _ g)|].
  destruct (shiftWhileGuessed _ first rest) as [coordinate queue].
  destruct (hasBeenGuessed _ coordinate); [by destruct (generateHuntGuess _ g)|done].
Qed.

(** [processGuessResult] keeps the size of the tracking board and the
    number of its rows, however it ends. *)
Lemma processGuessResult_standard (c : string) (result : GuessResult) (cpu : CPUPlayer) :
  standardBoard (opponentBoard (base cpu)) →
  standardBoard (opponentBoard (base (processGuessResult c result cpu).2)).
Proof.
  intros [Hsize Hrows]. unfold standardBoard, processGuessResult.
  destruct (parseCoordinate c) as [[row col]|e] eqn:Hparse; [|done].
  cbn [grid withGuesses]. destruct (hitR result).
  - destruct (gridSet row col HitMark _) as [g'|e] eqn:Hset; [|done].
    apply gridSet_length in Hset.
    destruct (sunk result); [simpl; split; congruence|].
    unfold addAdjacentTargets. rewrite Hparse. simpl. split; congruence.
  - destruct (gridSet row col MissMark _) as [g'|e] eqn:Hset; [|done].
    apply gridSet_length in Hset.
    cbn [mode targetQueue withTracking withBase].
    destruct (mode cpu), (targetQueue cpu); simpl; split; congruence.
Qed.

(** On every state of a game nothing is queued in Hunt mode, and the
    tracking board is the 10x10 board it was made as. *)
Lemma reachable_invariant (cpu : CPUPlayer) :
  reachable cpu → huntQueueEmpty cpu ∧ standardBoard (opponentBoard (base cpu)).
Proof.
  induction 1 as [n | cpu numShips shipLength g _ [IHq IHb] | cpu coordinate _ [IHq IHb]
                 | cpu g _ [IHq IHb] | cpu coordinate result _ [IHq IHb]].
  - split; [by intros _|]. split; reflexivity.
  - split; [exact IHq|]. unfold setupBoard.
    by destruct (placeShipsRandomly numShips shipLength (board (base cpu)) g) as [[r b'] g'].
  - split; [exact IHq|]. unfold receiveGuess.
    by destruct (processGuess coordinate (board (base cpu))) as [r b'].
  - split; [by apply generateGuess_huntQueueEmpty|]. by rewrite generateGuess_base.
  - split; [by apply processGuessResult_huntQueueEmpty | by apply processGuessResult_standard].
Qed.

(** C4.  On every state of a game that is in Hunt mode, and for every
    coordinate [c] of the board, [processGuessResult(c, {hit: true, sunk:
    false})] returns, the mode is then Target, and the target queue is
    exactly the in-bounds orthogonal neighbours of [c] on the 10x10 board
    that are not in the guessed-set of the tracking board, in the order
    up, down, left, right.  These are four coordinates for an interior
    [c] and two for a corner [c], when none of them was guessed. *)
Theorem processGuessResult_hit_enqueues (cpu : CPUPlayer) (c : string) (row col : Z)
    (result : GuessResult) :
  reachable cpu →
  mode cpu = Hunt →
  parseCoordinate c = Normal (Num row, Num col) →
  hitR result = true → sunk result = false →
  ∃ cpu' : CPUPlayer,
    processGuessResult c result cpu = (Normal tt, cpu') ∧
    mode cpu' = Target ∧
    targetQueue cpu'
    = filter (fun adj : string => adj ∉ guesses (opponentBoard (base cpu)))
             (inBoundsNeighbours 10 row col) ∧
    ((∀ adj : string, adj ∈ inBoundsNeighbours 10 row col →
                      adj ∉ guesses (opponentBoard (base cpu))) →
     ((1 ≤ row ≤ 8)%Z → (1 ≤ col ≤ 8)%Z → length (targetQueue cpu') = 4) ∧
     ((row = 0 ∨ row = 9)%Z → (col = 0 ∨ col = 9)%Z → length (targetQueue cpu') = 2)).
Proof.
  intros Hreach Hmode Hparse Hhit Hsunk.
  destruct (reachable_invariant cpu Hreach) as [Hhunt [Hsize Hrows]].
  specialize (Hhunt Hmode).
  destruct (parseCoordinate_inv c row col Hparse) as (Hr & Hc & _).
  assert (isValidCoordinate (opponentBoard (base cpu)) (Num row) (Num col) = true) as Hvalid.
  { apply isValidCoordinate_spec. rewrite Hsize. lia. }
  destruct (processGuessResult_hit_appends cpu c row col result Hparse Hvalid)
    as (cpu' & Hrun & Htarget & _ & Hqueue & Hcount); [congruence | done | done |].
  exists cpu'. split; [exact Hrun|]. split; [exact Htarget|]. split.
  - rewrite (Hqueue Hhunt). unfold openNeighbours. by rewrite Hsize.
  - exact (Hcount Hhunt Hsize).
Qed.

Lemma processGuessResult_hit_enqueues_witness :
  reachable cpuAfterSinking ∧ mode cpuAfterSinking = Hunt ∧
  ∃ cpu' : CPUPlayer,
    processGuessResult "46" hitNotSunk cpuAfterSinking = (Normal tt, cpu') ∧
    mode cpu' = Target ∧
    targetQueue cpu' = ["36"; "56"; "47"].
Proof.
  assert (reachable cpuAfterSinking) as Hreach.
  { apply reachable_processGuessResult, reachable_processGuessResult, reachable_new. }
  split; [exact Hreach|]. split; [reflexivity|].
  destruct (processGuessResult_hit_enqueues cpuAfterSinking "46" 4 6 hitNotSunk Hreach)
    as (cpu' & Hrun & Hmode & Hqueue & _); try reflexivity.
  exists cpu'. split; [exact Hrun|]. split; [exact Hmode|].
  rewrite Hqueue. reflexivity.
Defined.

End HitFromHunt.

(* ------------------------------------------------------------------ *)
(** ** Further properties: the CPU's turn and the end of the game *)

Section MoreGame.

Lemma addTarget_onBoard (ob : Board) (queue : list string) (cell : JsNumber * JsNumber) :
  size ob = 10 →
  (∀ q : string, q ∈ queue → q ∈ scanOrder) →
  ∀ q : string, q ∈ addTarget ob queue cell → q ∈ scanOrder.
Proof.
  intros Hsize Hqueue q. unfold addTarget. destruct cell as [r k].
  destruct (isValidCoordinate ob r k) eqn:Hvalid; [|apply Hqueue].
  destruct (negb _ && negb _); [|apply Hqueue].
  intros Hq. apply elem_of_app in Hq as [Hq|Hq]; [by apply Hqueue|].
  apply list_elem_of_singleton in Hq as ->.
  destruct r as [r|]; [|done].
  destruct k as [k|];
    [|by unfold isValidCoordinate in Hvalid; simpl in Hvalid; rewrite ?andb_false_r in Hvalid].
  apply isValidCoordinate_spec in Hvalid. rewrite Hsize in Hvalid.
  apply scanOrder_elem. exists r, k. split_and!; [lia..|done].
Qed.

(** X20.  "Every queued target is a coordinate of the 10x10 board" is an
    invariant of a CPU player whose tracking board has size 10:
    [generateGuess] and [processGuessResult] keep it, however they end. *)
Theorem queueOnBoard_kept (cpu : CPUPlayer) :
  size (opponentBoard (base cpu)) = 10 →
  queueOnBoard cpu →
  (∀ g : Random, queueOnBoard (generateGuess cpu g).1.2) ∧
  (∀ (c : string) (result : GuessResult), queueOnBoard (processGuessResult c result cpu).2).
Proof.
  intros Hsize Hinv. unfold queueOnBoard in *. split.
  - intros g. unfold generateGuess.
    destruct (mode cpu).
    + destruct (generateHuntGuess (withMode Hunt cpu) g) as [guess g'].
      destruct (targetQueue cpu) eqn:Hqueue; simpl;
        intros q Hq; rewrite ?Hqueue in Hq; by apply Hinv.
    + destruct (targetQueue cpu) as [|first rest] eqn:Hqueue.
      * destruct (generateHuntGuess (withMode Hunt cpu) g) as [guess g']. simpl.
        intros q Hq; rewrite ?Hqueue in Hq; by apply Hinv.
      * pose proof (shiftWhileGuessed_suffix (opponentBoard (base cpu)) first rest) as Hsuffix.
        destruct (shiftWhileGuessed (opponentBoard (base cpu)) first rest) as [c' queue'].
        cbn [base opponentBoard withTargetQueue]. simpl in Hsuffix.
        assert (∀ q : string, q ∈ queue' → q ∈ scanOrder) as Hqueue'.
        { intros q Hq. apply Hinv. destruct (Hsuffix q) as [->|Hin]; [by right|left|by right]. }
        destruct (hasBeenGuessed (opponentBoard (base cpu)) c').
        -- destruct (generateHuntGuess _ g) as [guess g']. simpl. done.
        -- simpl. done.
  - intros c result. unfold processGuessResult.
    destruct (parseCoordinate c) as [[row col]|e] eqn:Hparse; [|done].
    cbn [grid withGuesses]. destruct (hitR result).
    + destruct (gridSet row col HitMark _) as [g'|e]; [|done].
      destruct (sunk result); [simpl; intros q Hq; by apply elem_of_nil in Hq|].
      unfold addAdjacentTargets. rewrite Hparse.
      cbn [snd targetQueue withTargetQueue withMode withLastHit withTracking withBase base
           opponentBoard withOpponentBoard].
      unfold adjacentCells. cbn [foldl].
      do 4 (apply addTarget_onBoard; [exact Hsize|]). exact Hinv.
    + destruct (gridSet row col MissMark _) as [g'|e]; [|done].
      cbn [mode targetQueue withTracking withBase].
      destruct (mode cpu), (targetQueue cpu) eqn:Hqueue; simpl;
        intros q Hq; rewrite ?Hqueue in Hq; by apply Hinv.
Qed.

Lemma queueOnBoard_kept_witness :
  queueOnBoard (processGuessResult "44" hitNotSunk (newCPUPlayer "CPU")).2.
Proof.
  apply (queueOnBoard_kept (newCPUPlayer "CPU")); [reflexivity|].
  intros q Hq. simpl in Hq. by apply elem_of_nil in Hq.
Defined.

(** What [generateGuess] returns on a player whose queue is on the board,
    when some coordinate is unguessed. *)
Lemma generateGuess_onBoard (cpu : CPUPlayer) (g : Random) (coord : string) :
  queueOnBoard cpu →
  coord ∈ scanOrder → hasBeenGuessed (opponentBoard (base cpu)) coord = false →
  ∃ (guess : string) (cpu' : CPUPlayer) (g' : Random),
    generateGuess cpu g = (guess, cpu', g') ∧
    base cpu' = base cpu ∧
    guess ∈ scanOrder ∧
    hasBeenGuessed (opponentBoard (base cpu)) guess = false.
Proof.
  intros Hqueue Hin Hfree.
  assert (Hhunt : ∀ cpu0 : CPUPlayer,
            base cpu0 = base cpu →
            ∃ (guess : string) (g' : Random),
              generateHuntGuess cpu0 g = (guess, g') ∧ guess ∈ scanOrder ∧
              hasBeenGuessed (opponentBoard (base cpu)) guess = false).
  { intros cpu0 Hsame.
    destruct (generateHuntGuess_spec cpu0 g coord)
      as (guess & g' & Hrun & Hguess & Hunguessed & _); [done|by rewrite Hsame|].
    exists guess, g'. split_and!; [done..|]. by rewrite <- Hsame. }
  unfold generateGuess.
  destruct (mode cpu) eqn:Hmode.
  - destruct (Hhunt (withMode Hunt cpu) eq_refl) as (guess & g' & Hrun & Hguess & Hun).
    rewrite Hrun. destruct (targetQueue cpu); by eexists _, _, _.
  - destruct (targetQueue cpu) as [|first rest] eqn:Hq.
    + destruct (Hhunt (withMode Hunt cpu) eq_refl) as (guess & g' & Hrun & Hguess & Hun).
      rewrite Hrun. by eexists _, _, _.
    + pose proof (shiftWhileGuessed_suffix (opponentBoard (base cpu)) first rest) as Hsuffix.
      destruct (shiftWhileGuessed (opponentBoard (base cpu)) first rest) as [c' queue'].
      cbn [base opponentBoard withTargetQueue]. simpl in Hsuffix.
      destruct (hasBeenGuessed (opponentBoard (base cpu)) c') eqn:Hc'.
      * destruct (Hhunt (withMode Hunt (withTargetQueue queue' cpu)) eq_refl)
          as (guess & g' & Hrun & Hguess & Hun).
        rewrite Hrun. by eexists _, _, _.
      * eexists _, _, _. split; [reflexivity|]. split_and!; [done| |done].
        apply Hqueue. rewrite Hq. destruct (Hsuffix c') as [->|Hrest]; [by left|left|by right].
Qed.

(** On a board with its ten rows, [processGuess] returns for every
    coordinate of the 10x10 board: it does not throw. *)
Lemma processGuess_returns (c : string) (b : Board) :
  c ∈ scanOrder → length (grid b) = 10 →
  ∃ (result : GuessResult) (b' : Board), processGuess c b = (Normal result, b').
Proof.
  intros Hin Hrows. apply scanOrder_elem in Hin as (row & col & Hr & Hk & ->).
  unfold processGuess. destruct (hasBeenGuessed b _); [by eexists _, _|].
  rewrite parse_coordinateString by done. cbn [ships grid withGuesses withShips].
  destruct (hitFirstShip _ 0 (ships b)) as [[[index sunkNow]|] l].
  - destruct (gridSet_row (grid b) row col HitMark) as (g' & Hset & _); [lia | lia |].
    rewrite Hset. by eexists _, _.
  - destruct (gridSet_row (grid b) row col MissMark) as (g' & Hset & _); [lia | lia |].
    rewrite Hset. by eexists _, _.
Qed.

(** X21.  A CPU turn on standard boards, with the queue on the board and some
    coordinate still unguessed: the turn does not throw; the guess is new
    to the tracking board; the human board resolves it; and the tracking
    board then holds the guess with the hit symbol when the human board
    answered hit and the miss symbol otherwise. *)
Theorem handleCPUTurn_tracks_result (gm : Game) (g : Random) (coord : string) :
  standardBoard (opponentBoard (base (cpuPlayer gm))) →
  standardBoard (board (humanPlayer gm)) →
  queueOnBoard (cpuPlayer gm) →
  coord ∈ scanOrder →
  hasBeenGuessed (opponentBoard (base (cpuPlayer gm))) coord = false →
  ∃ (guess : string) (result : GuessResult) (row col : Z) (gm' : Game) (g' : Random),
    handleCPUTurn gm g
    = (Normal [ShowCPUTurn; ShowCPUGuessResult guess result (mode (cpuPlayer gm'))], gm', g') ∧
    hasBeenGuessed (opponentBoard (base (cpuPlayer gm))) guess = false ∧
    processGuess guess (board (humanPlayer gm)) = (Normal result, board (humanPlayer gm')) ∧
    parseCoordinate guess = Normal (Num row, Num col) ∧
    hasBeenGuessed (opponentBoard (base (cpuPlayer gm'))) guess = true ∧
    cellAt (grid (opponentBoard (base (cpuPlayer gm')))) (Z.to_nat row) (Z.to_nat col)
    = Some (if hitR result then HitMark else MissMark).
Proof.
  intros [Hsize Hrows] [_ Hrows'] Hqueue Hin Hfree.
  destruct (generateGuess_onBoard (cpuPlayer gm) g coord Hqueue Hin Hfree)
    as (guess & cpu1 & g' & Hgen & Hbase & Hguess & Hnew).
  destruct (processGuess_returns guess (board (humanPlayer gm)) Hguess Hrows')
    as (result & hb' & Hresolve).
  pose proof Hguess as Hg. apply scanOrder_elem in Hg as (row & col & Hr & Hk & Hstr).
  assert (parseCoordinate guess = Normal (Num row, Num col)) as Hparse.
  { rewrite Hstr. by apply parse_coordinateString. }
  destruct (gridSet_row (grid (opponentBoard (base cpu1))) row col
              (if hitR result then HitMark else MissMark))
    as (g2 & Hset & _ & Hcell2 & _); [rewrite Hbase; lia | lia |].
  destruct (processGuessResult_tracking cpu1 guess (Num row) (Num col) result g2 Hparse Hset)
    as (cpu2 & Hrecord & Hbase2).
  assert (guesses (opponentBoard (base cpu2))
          = {[guess]} ∪ guesses (opponentBoard (base cpu1))) as Hguesses
    by (by rewrite Hbase2).
  assert (cellAt (grid (opponentBoard (base cpu2))) (Z.to_nat row) (Z.to_nat col)
          = Some (if hitR result then HitMark else MissMark)) as Hcell
    by (by rewrite Hbase2).
  exists guess, result, row, col.
  unfold handleCPUTurn. rewrite Hgen. cbn [humanPlayer cpuPlayer withCPU withHuman].
  unfold receiveGuess. rewrite Hresolve. cbn [humanPlayer cpuPlayer withCPU withHuman].
  rewrite Hrecord.
  exists (withCPU cpu2 (withHuman (withBoard hb' (humanPlayer gm)) (withCPU cpu1 gm))), g'.
  split; [reflexivity|].
  cbn [humanPlayer cpuPlayer withCPU withHuman board withBoard].
  split_and!; try done.
  unfold hasBeenGuessed. rewrite Hguesses. apply bool_decide_eq_true.
  apply elem_of_union. left. by apply elem_of_singleton.
Qed.

Lemma handleCPUTurn_tracks_result_witness :
  ∃ (guess : string) (result : GuessResult) (gm' : Game) (g' : Random),
    handleCPUTurn gameWithShipAt00 zeroSource
    = (Normal [ShowCPUTurn; ShowCPUGuessResult guess result (mode (cpuPlayer gm'))], gm', g') ∧
    hasBeenGuessed (opponentBoard (base (cpuPlayer gm'))) guess = true.
Proof.
  destruct (handleCPUTurn_tracks_result gameWithShipAt00 zeroSource "00")
    as (guess & result & row & col & gm' & g' & Hrun & _ & _ & _ & Hguessed & _).
  - split; reflexivity.
  - split; reflexivity.
  - intros q Hq. simpl in Hq. by apply elem_of_nil in Hq.
  - apply scanOrder_elem. exists 0%Z, 0%Z. split_and!; (lia || reflexivity).
  - reflexivity.
  - exists guess, result, gm', g'. split; [exact Hrun | exact Hguessed].
Defined.

(** X22.  [checkGameOver()] answers true exactly when one of the two players has
    at least one ship and no ship left unsunk; then it sets the game-over
    flag and changes nothing else, and when it answers false it changes
    nothing at all. *)
Theorem checkGameOver_iff (gm : Game) :
  ((checkGameOver gm).1 = true
   ↔ (ships (board (base (cpuPlayer gm))) ≠ [] ∧ getRemainingShips (base (cpuPlayer gm)) = 0)
     ∨ (ships (board (humanPlayer gm)) ≠ [] ∧ getRemainingShips (humanPlayer gm) = 0)) ∧
  ((checkGameOver gm).1 = true → (checkGameOver gm).2 = withGameOver true gm) ∧
  ((checkGameOver gm).1 = false → (checkGameOver gm).2 = gm).
Proof.
  unfold checkGameOver, isDefeated, getRemainingShips.
  rewrite <- !allShipsSunk_iff.
  destruct (allShipsSunk (board (base (cpuPlayer gm))));
    destruct (allShipsSunk (board (humanPlayer gm))); simpl; naive_solver.
Qed.

End MoreGame.

(* ------------------------------------------------------------------ *)
(** ** Further properties: invariants and the exhausted board *)

Section MoreInvariants.

(** A write of [v] leaves every cell as it was or holding [v]. *)
Lemma gridSet_cell (row col : JsNumber) (v : Cell) (g g' : Grid) (r k : nat) :
  gridSet row col v g = Normal g' →
  cellAt g' r k = cellAt g r k ∨ cellAt g' r k = Some v.
Proof.
  unfold gridSet. destruct (gridRow g row) as [cells|] eqn:Hrow; [|done].
  destruct row as [z|]; [|done]. destruct col as [y|]; [|intros [= <-]; by left].
  case_bool_decide as Hy; [|intros [= <-]; by left]. intros [= <-].
  unfold gridRow in Hrow. case_bool_decide as Hz; [|done].
  unfold cellAt. destruct (decide (r = Z.to_nat z)) as [->|Hr].
  - rewrite list_lookup_insert_eq by (by eapply lookup_lt_Some). rewrite Hrow.
    destruct (decide (k = Z.to_nat y)) as [->|Hk].
    + right. by rewrite arraySet_lookup.
    + left. by apply arraySet_lookup_ne.
  - left. by rewrite list_lookup_insert_ne.
Qed.

(** X23.  Resolving a guess keeps the ships of a board consistent: whatever
    the coordinate is and however the call ends, the ships stay marked on
    the grid and pairwise disjoint. *)
Theorem processGuess_keeps_consistent (c : string) (b : Board) :
  shipsConsistent b → shipsConsistent (processGuess c b).2.
Proof.
  intros [Hmarked Hdisj].
  assert (Hkeep : ∀ b' : Board,
            size b' = size b →
            locations <$> ships b' = locations <$> ships b →
            (∀ r k : nat, cellAt (grid b') r k = cellAt (grid b) r k
                          ∨ cellAt (grid b') r k = Some HitMark
                          ∨ cellAt (grid b') r k = Some MissMark) →
            shipsConsistent b').
  { intros b' Hsize Hlocs Hcells. split.
    - intros s x Hs Hx.
      assert (∃ t : Ship, t ∈ ships b ∧ locations t = locations s) as (t & Ht & Hloc).
      { apply list_elem_of_lookup in Hs as [i Hi].
        assert ((locations <$> ships b) !! i = Some (locations s)) as Hlook.
        { rewrite <- Hlocs, list_lookup_fmap, Hi. done. }
        rewrite list_lookup_fmap in Hlook.
        destruct (ships b !! i) as [t|] eqn:Ht; [|done].
        exists t. split; [by eapply list_elem_of_lookup_2|]. by injection Hlook. }
      destruct (Hmarked t x Ht) as (row & col & Hparse & Hvalid & Hcell);
        [by rewrite Hloc|].
      exists row, col. split_and!; [done| |].
      + unfold isValidCoordinate in *. by rewrite Hsize.
      + destruct (Hcells (Z.to_nat row) (Z.to_nat col)) as [Hsame|[Hhit|Hmiss]]; congruence.
    - intros i j s t x Hij Hs Ht Hx.
      assert (∀ (n : nat) (u : Ship), ships b' !! n = Some u →
                ∃ u0 : Ship, ships b !! n = Some u0 ∧ locations u0 = locations u) as Hback.
      { intros n u Hn.
        assert ((locations <$> ships b) !! n = Some (locations u)) as Hlook.
        { rewrite <- Hlocs, list_lookup_fmap, Hn. done. }
        rewrite list_lookup_fmap in Hlook.
        destruct (ships b !! n) as [u0|]; [|done]. exists u0. split; [done|].
        by injection Hlook. }
      destruct (Hback i s Hs) as (s0 & Hs0 & Hls). destruct (Hback j t Ht) as (t0 & Ht0 & Hlt).
      rewrite <- Hlt. apply (Hdisj i j s0 t0 x Hij Hs0 Ht0). by rewrite Hls. }
  unfold processGuess. destruct (hasBeenGuessed b c); [done|].
  destruct (parseCoordinate c) as [[row col]|e]; simpl.
  2: { apply Hkeep; simpl; [done..|]. intros; by left. }
  pose proof (hitFirstShip_locations c 0 (ships b)) as Hloc.
  destruct (hitFirstShip c 0 (ships b)) as [[[index sunkNow]|] l]; simpl in *.
  - destruct (gridSet row col HitMark (grid b)) as [g'|e] eqn:Hset; simpl.
    + apply Hkeep; simpl; [done..|]. intros r k.
      destruct (gridSet_cell _ _ _ _ _ r k Hset) as [?|?]; [by left|right; by left].
    + apply Hkeep; simpl; [done..|]. intros; by left.
  - destruct (gridSet row col MissMark (grid b)) as [g'|e] eqn:Hset; simpl.
    + apply Hkeep; simpl; [done..|]. intros r k.
      destruct (gridSet_cell _ _ _ _ _ r k Hset) as [?|?]; [by left|right; by right].
    + apply Hkeep; simpl; [done..|]. intros; by left.
Qed.

Lemma processGuess_keeps_consistent_witness :
  ships (placeShip ["23"; "24"; "25"] (newBoard 10)).2
  = [{| locations := ["23"; "24"; "25"]; hits := [false; false; false] |}] ∧
  shipsConsistent (placeShip ["23"; "24"; "25"] (newBoard 10)).2 ∧
  shipsConsistent (processGuess "24" (placeShip ["23"; "24"; "25"] (newBoard 10)).2).2.
Proof.
  assert (shipsConsistent (placeShip ["23"; "24"; "25"] (newBoard 10)).2) as Hplaced.
  { destruct (newBoard_consistent 10) as [Hmarked Hdisj].
    exact (placeShip_keeps [] (newBoard 10) (placeShip ["23"; "24"; "25"] (newBoard 10)).2
             ["23"; "24"; "25"] eq_refl eq_refl Hmarked Hdisj). }
  split; [reflexivity|]. split; [exact Hplaced|].
  exact (processGuess_keeps_consistent "24" (placeShip ["23"; "24"; "25"] (newBoard 10)).2
           Hplaced).
Defined.

Lemma fallbackScan_none (ob : Board) :
  (∀ c : string, c ∈ scanOrder → hasBeenGuessed ob c = true) → fallbackScan ob = None.
Proof.
  intros Hall. unfold fallbackScan.
  destruct (find _ scanOrder) as [found|] eqn:E; [|done].
  apply find_some in E as [Hin Hfree]. apply list_elem_of_In in Hin.
  rewrite (Hall found Hin) in Hfree. discriminate Hfree.
Qed.

(** The coordinate [huntLoop] returns is the one its last round drew:
    round [attempts'] takes the random values number [2 * (attempts' - 1)]
    and the next, counted from the first round's. *)
Lemma huntLoop_last (ob : Board) (attempts : nat) (g : Random) :
  ∃ (coordinate : string) (attempts' : nat) (g' : Random),
    huntLoop ob attempts g = (coordinate, attempts', g') ∧
    S attempts ≤ attempts' ∧
    coordinate
    = (drawCoordinate
         {| draws := draws g; cursor := cursor g + 2 * (attempts' - S attempts) |}).1.
Proof.
  funelim (huntLoop ob attempts g).
  - destruct H as (c' & a' & g'' & Hrun & Hle & Hlast).
    exists c', a', g''. rewrite Hrun. split; [done|]. split; [lia|].
    rewrite Hlast. cbn [draws cursor]. do 2 f_equal. f_equal. lia.
  - eexists _, (S attempts), _. split; [reflexivity|]. split; [lia|].
    rewrite Nat.sub_diag, Nat.mul_0_r, Nat.add_0_r. reflexivity.
Qed.

(** X24.  With every coordinate of the 10x10 board guessed, [generateHuntGuess]
    still returns: it uses all its 100 rounds (200 random values), finds
    nothing in the fallback scan, and returns the coordinate drawn in the
    last round (from the random values number 198 and 199), which is a
    guessed one. *)
Theorem generateHuntGuess_exhausted (cpu : CPUPlayer) (g : Random) :
  (∀ c : string, c ∈ scanOrder → hasBeenGuessed (opponentBoard (base cpu)) c = true) →
  ∃ (guess : string) (g' : Random),
    generateHuntGuess cpu g = (guess, g') ∧
    guess
    = (drawCoordinate
         {| draws := draws g; cursor := cursor g + 2 * (huntMaxAttempts - 1) |}).1 ∧
    guess ∈ scanOrder ∧
    hasBeenGuessed (opponentBoard (base cpu)) guess = true ∧
    draws g' = draws g ∧ cursor g' = cursor g + 2 * huntMaxAttempts.
Proof.
  intros Hall. unfold generateHuntGuess.
  destruct (huntLoop_spec (opponentBoard (base cpu)) 0 g)
    as (c' & a' & g' & Hrun & Hin & Hle & Hmax & Hfree & Hd & Hcur).
  destruct (huntLoop_last (opponentBoard (base cpu)) 0 g)
    as (c'' & a'' & g'' & Hrun' & _ & Hlast).
  rewrite Hrun in Hrun'. injection Hrun' as <- <- <-.
  rewrite Hrun.
  assert (a' = huntMaxAttempts) as ->.
  { destruct (decide (a' < huntMaxAttempts)) as [Hlt|Hge].
    - rewrite (Hall c' Hin) in Hfree. by specialize (Hfree Hlt).
    - destruct Hmax as [Hm | ->]; [lia|]. unfold huntMaxAttempts in *. lia. }
  rewrite bool_decide_eq_true_2 by done. rewrite (fallbackScan_none _ Hall).
  exists c', g'. split; [reflexivity|]. split; [exact Hlast|].
  split; [exact Hin|]. split; [exact (Hall c' Hin)|]. split; [exact Hd|]. lia.
Qed.

Lemma generateHuntGuess_exhausted_witness :
  ∃ g' : Random,
    generateHuntGuess cpuAllGuessed tenthsSource = ("89", g') ∧ cursor g' = 200.
Proof.
  destruct (generateHuntGuess_exhausted cpuAllGuessed tenthsSource)
    as (guess & g' & Hrun & Hlast & _ & _ & _ & Hcur).
  - intros c Hc. unfold hasBeenGuessed, cpuAllGuessed.
    cbn [opponentBoard base withTracking withBase withOpponentBoard withGuesses guesses].
    apply bool_decide_eq_true. by apply elem_of_list_to_set.
  - exists g'. vm_compute in Hlast. rewrite Hlast in Hrun.
    split; [exact Hrun | exact Hcur].
Defined.

End MoreInvariants.
